(** * Mailbox ingestion, exclusion rules and conversation reduction

    A shallow embedding of [end_to_end_vc_research.py]: the helpers that
    flatten one mailbox message into a row, the four exclusion rules of
    [parse_mbox_file], steps 3 and 4 of [main] (sort by date, newest first,
    then keep the first row of every sender domain), and the control flow of
    the analysis, drafting and table phases around the external services.

    Conventions.
    - A Python [str] is a [string]; the operations written out here
      (substring test, [split], comparison, [join]) act on it character by
      character. [str.lower] and [str.strip] depend on the Unicode tables
      and are taken from the [Library] interface below.
    - A header value is a [str] or an [email.header.Header]: the mailbox is
      read under the [compat32] policy, which hands out a [Header] object for
      a header whose raw text holds bytes that are not ASCII.
    - Calls into the [email], [html.parser] and [re] packages are the
      fields of [Library]; a call that may raise returns an [option],
      [None] standing for the exception.
    - A function whose exceptions can reach its caller returns a [result].
    - The module-level configuration constants are gathered in a [Config]
      record that the functions receive as an argument.
    - [print] raises [UnicodeEncodeError] when [sys.stdout] cannot encode the
      line. A line is encoded character by character, so a line made of fixed
      ASCII words, decimal numbers and one piece of data is written exactly
      when that piece can be encoded; the lines without data are taken to be
      written. The same holds for the fields written to the output file. *)

From Stdlib Require Import ZArith Ascii.
From stdpp Require Import base option list strings gmap sets sorting.

(** ** Strings *)

(** [sub in s] *)
Fixpoint contains (sub s : string) : bool :=
  String.prefix sub s ||
  match s with
  | EmptyString => false
  | String _ s' => contains sub s'
  end.

(** [s.split(sep, 1)] for a one-character separator [sep]: [[s]] when [sep]
    does not occur, otherwise the text before its first occurrence followed by
    the text after it. *)
Fixpoint split_1 (sep : ascii) (s : string) : list string :=
  match s with
  | EmptyString => [""]
  | String c s' =>
      if Ascii.eqb c sep then [""; s']
      else match split_1 sep s' with
           | hd :: tl => String c hd :: tl
           | [] => [String c ""]
           end
  end.

(** [l[-1]] on a list of strings that is never empty here. *)
Definition last_item (l : list string) : string := default "" (last l).

(** [sep.join(l)] *)
Fixpoint join (sep : string) (l : list string) : string :=
  match l with
  | [] => ""
  | [x] => x
  | x :: l' => x +:+ sep +:+ join sep l'
  end.

(** Truthiness of a [str]. *)
Definition truthy (s : string) : bool := negb (String.eqb s "").

(** [sorted(set(l))]: the distinct elements in increasing order. *)
Fixpoint insert_uniq (x : string) (l : list string) : list string :=
  match l with
  | [] => [x]
  | y :: l' =>
      if String.eqb x y then l
      else if String.ltb x y then x :: l
      else y :: insert_uniq x l'
  end.

Definition sorted_set (l : list string) : list string :=
  foldr insert_uniq [] l.

(** ** Exceptions *)

Inductive result (A : Type) : Type :=
  | Ok (a : A)
  | Raise.
Arguments Ok {A} a.
Arguments Raise {A}.

#[global] Instance result_ret : MRet result := @Ok.
#[global] Instance result_bind : MBind result := λ A B f m,
  match m with
  | Ok a => f a
  | Raise => Raise
  end.

(** ** Dates *)

(** A [datetime] as [parsedate_to_datetime] builds it: whole seconds, and an
    optional offset from UTC, kept in minutes (the parser computes it from an
    [hhmm] numeral). [None] is a naive datetime. *)
Record datetime : Type := mk_datetime {
  year : Z;
  month : Z;
  day : Z;
  hour : Z;
  minute : Z;
  second : Z;
  utcoffset : option Z
}.

Definition is_leap (y : Z) : bool :=
  (y mod 4 =? 0)%Z && (negb (y mod 100 =? 0)%Z || (y mod 400 =? 0)%Z).

Definition days_in_month (y m : Z) : Z :=
  if (m =? 2)%Z then (if is_leap y then 29 else 28)%Z
  else if (m =? 4)%Z || (m =? 6)%Z || (m =? 9)%Z || (m =? 11)%Z then 30%Z
  else 31%Z.

(** The range checks of the [datetime] and [timezone] constructors. *)
Definition valid_datetime (dt : datetime) : bool :=
  (1 <=? year dt)%Z && (year dt <=? 9999)%Z &&
  (1 <=? month dt)%Z && (month dt <=? 12)%Z &&
  (1 <=? day dt)%Z && (day dt <=? days_in_month (year dt) (month dt))%Z &&
  (0 <=? hour dt)%Z && (hour dt <? 24)%Z &&
  (0 <=? minute dt)%Z && (minute dt <? 60)%Z &&
  (0 <=? second dt)%Z && (second dt <? 60)%Z &&
  match utcoffset dt with
  | None => true
  | Some off => (-1440 <? off)%Z && (off <? 1440)%Z
  end.

(** [datetime(...)], raising [ValueError] on a field out of range. *)
Definition new_datetime (dt : datetime) : option datetime :=
  if valid_datetime dt then Some dt else None.

Definition digit (n : Z) : ascii := ascii_of_N (Z.to_N (48 + n mod 10)).

(** ["%02d" % n] and ["%04d" % n] on the ranges of the datetime fields. *)
Definition pad2 (n : Z) : string :=
  String (digit (n / 10)) (String (digit n) "").
Definition pad4 (n : Z) : string :=
  String (digit (n / 1000)) (String (digit (n / 100)) (pad2 n)).

(** The offset suffix of [isoformat]: a sign, hours and minutes. *)
Definition format_offset (off : option Z) : string :=
  match off with
  | None => ""
  | Some o =>
      (if (o <? 0)%Z then "-" else "+") +:+
      pad2 (Z.abs o / 60) +:+ ":" +:+ pad2 (Z.abs o mod 60)
  end.

(** [dt.isoformat()] *)
Definition isoformat (dt : datetime) : string :=
  pad4 (year dt) +:+ "-" +:+ pad2 (month dt) +:+ "-" +:+ pad2 (day dt) +:+ "T" +:+
  pad2 (hour dt) +:+ ":" +:+ pad2 (minute dt) +:+ ":" +:+ pad2 (second dt) +:+
  format_offset (utcoffset dt).

(** *** Reader of the ISO-8601 extended format

    A calendar date and a time of day, [YYYY-MM-DDTHH:MM:SS], followed or not
    by an offset from UTC, [+HH:MM] or [-HH:MM]. The date must exist in the
    calendar, and a zero offset is not written with a minus sign. *)

Definition digit_value (c : ascii) : Z := Z.of_N (N_of_ascii c) - 48.

Definition is_digit (c : ascii) : bool :=
  (0 <=? digit_value c)%Z && (digit_value c <=? 9)%Z.

Fixpoint read_digits (k : nat) (acc : Z) (s : string) : option (Z * string) :=
  match k with
  | O => Some (acc, s)
  | S k' =>
      match s with
      | String c s' =>
          if is_digit c then read_digits k' (10 * acc + digit_value c) s'
          else None
      | EmptyString => None
      end
  end.

Definition expect (c : ascii) (s : string) : option string :=
  match s with
  | String c' s' => if Ascii.eqb c c' then Some s' else None
  | EmptyString => None
  end.

(** Years divisible by 4 are leap years, except the centuries not divisible
    by 400. *)
Definition iso_leap_year (y : Z) : bool :=
  if (y mod 400 =? 0)%Z then true
  else if (y mod 100 =? 0)%Z then false
  else (y mod 4 =? 0)%Z.

Definition iso_month_length (y m : Z) : Z :=
  match m with
  | 1 => 31 | 2 => if iso_leap_year y then 29 else 28 | 3 => 31 | 4 => 30
  | 5 => 31 | 6 => 30 | 7 => 31 | 8 => 31 | 9 => 30 | 10 => 31 | 11 => 30
  | 12 => 31 | _ => 0
  end%Z.

(** The offset, in minutes, and nothing after it. *)
Definition read_offset (s : string) : option (option Z) :=
  match s with
  | EmptyString => Some None
  | String c s' =>
      '(hh, s1) ← read_digits 2 0 s';
      s2 ← expect ":" s1;
      '(mm, s3) ← read_digits 2 0 s2;
      if negb (String.eqb s3 "") || (23 <? hh)%Z || (59 <? mm)%Z then None
      else if Ascii.eqb c "+" then Some (Some (60 * hh + mm)%Z)
      else if Ascii.eqb c "-" && negb ((hh =? 0)%Z && (mm =? 0)%Z)
      then Some (Some (- (60 * hh + mm))%Z)
      else None
  end.

(** The date and time a string denotes, if it is a valid ISO-8601
    date-time. *)
Definition parse_iso8601 (s : string) : option datetime :=
  '(y, s1) ← read_digits 4 0 s;
  s2 ← expect "-" s1;
  '(m, s3) ← read_digits 2 0 s2;
  s4 ← expect "-" s3;
  '(d, s5) ← read_digits 2 0 s4;
  s6 ← expect "T" s5;
  '(h, s7) ← read_digits 2 0 s6;
  s8 ← expect ":" s7;
  '(mi, s9) ← read_digits 2 0 s8;
  s10 ← expect ":" s9;
  '(sec, s11) ← read_digits 2 0 s10;
  off ← read_offset s11;
  if (1 <=? m)%Z && (m <=? 12)%Z &&
     (1 <=? d)%Z && (d <=? iso_month_length y m)%Z &&
     (h <=? 23)%Z && (mi <=? 59)%Z && (sec <=? 59)%Z
  then Some (mk_datetime y m d h mi sec off)
  else None.

Definition is_iso8601 (s : string) : bool :=
  match parse_iso8601 s with
  | Some _ => true
  | None => false
  end.

(** The timestamp names an offset from UTC. *)
Definition timezone_aware (s : string) : Prop :=
  ∃ dt off, parse_iso8601 s = Some dt ∧ utcoffset dt = Some off.

(** ** Header values *)

(** An [email.header.Header] object: what [str(h)] gives, and what
    [str(make_header(decode_header(h)))] gives, [None] when that raises. *)
Record Header : Type := mk_Header {
  Header_str : string;
  Header_decoded : option string
}.

(** What [msg.get] and [msg.get_all] hand out for one header. *)
Inductive header_value : Type :=
  | HStr (s : string)
  | HHeader (h : Header).

(** [str(v)] *)
Definition header_str (v : header_value) : string :=
  match v with
  | HStr s => s
  | HHeader h => Header_str h
  end.

(** Truthiness: a [Header] defines neither [__bool__] nor [__len__]. *)
Definition header_truthy (v : header_value) : bool :=
  match v with
  | HStr s => truthy s
  | HHeader _ => true
  end.

(** ** Library interface *)

(** What the pipeline asks of the Python runtime and of the [email],
    [html.parser] and [re] packages. *)
Class Library : Type := {
  (** [s.lower()] *)
  lower : string → string;
  (** [s.strip()] *)
  strip : string → string;
  (** [email.utils.parseaddr] on a [str]: display name and address *)
  parseaddr : string → string * string;
  (** [email.utils.parseaddr] on a [Header] object: [TypeError] in the
      releases whose parser takes the length of its argument, [('', '')] in
      those that first test for a [str] *)
  parseaddr_Header : Header → result (string * string);
  (** [email.utils.getaddresses], which takes the [str()] of every value *)
  getaddresses : list string → list (string * string);
  (** [str(make_header(decode_header(value)))] *)
  make_header : string → option string;
  (** [email._parseaddr._parsedate_tz]: the date fields read from a header,
      not yet range-checked *)
  _parsedate_tz : string → option datetime;
  (** [HTMLParser.feed]: the data chunks handed to [handle_data] *)
  feed : string → option (list string);
  (** [re.sub(r"<[^>]+>", "", html)] *)
  re_sub_tags : string → string
}.

(** [email.utils.parsedate_to_datetime]: raises when the header does not
    parse or when the fields are out of range. *)
Definition parsedate_to_datetime `{Library} (data : string) : option datetime :=
  dt ← _parsedate_tz data; new_datetime dt.

(** ** Messages *)

(** An [email.message.Message]: its header list, and what its methods
    return. [get_content] and [payload_text] are [None] when the call
    raises; [payload_text] is
    [get_payload(decode=True).decode(errors="replace")]. [subparts] is the
    payload of a multipart message. *)
#[local] Unset Elimination Schemes.
Inductive Message : Type := mk_message {
  headers : list (string * header_value);
  get_content_type : string;
  get_content : option string;
  payload_text : option string;
  subparts : option (list Message)
}.
#[local] Set Elimination Schemes.

Definition is_multipart (msg : Message) : bool :=
  match subparts msg with Some _ => true | None => false end.

(** [msg.walk()]: the message itself, then its sub-parts depth first. *)
Fixpoint walk (msg : Message) : list Message :=
  msg ::
  match subparts msg with
  | Some parts =>
      (fix walk_all (l : list Message) : list Message :=
         match l with
         | [] => []
         | part :: l' => walk part ++ walk_all l'
         end) parts
  | None => []
  end.

Section helpers.
Context `{Library}.

(** [msg.get_all(name, [])]; header names compare case-insensitively. *)
Definition get_all (msg : Message) (name : string) : list header_value :=
  omap (λ kv : string * header_value,
          if String.eqb (lower kv.1) (lower name) then Some kv.2 else None)
       (headers msg).

(** [msg.get(name)] *)
Definition get (msg : Message) (name : string) : option header_value :=
  head (get_all msg name).

(** [v.lower()]: a [Header] has no such method ([AttributeError]). *)
Definition header_lower (v : header_value) : result string :=
  match v with
  | HStr s => Ok (lower s)
  | HHeader _ => Raise
  end.

(** *** Helper functions for email parsing *)

Definition _html_to_text (html : string) : string :=
  match feed html with
  | Some _parts => join "" _parts
  | None => re_sub_tags html
  end.

(** On a failure the value itself is returned, be it a [str] or a
    [Header]. *)
Definition _decode_header (value : header_value) : header_value :=
  if negb (header_truthy value) then HStr ""
  else match
         match value with
         | HStr s => make_header s
         | HHeader h => Header_decoded h
         end
       with
       | Some s => HStr s
       | None => value
       end.

Definition _extract_addresses (msg : Message) (header_name : string) : string :=
  let raw := get_all msg header_name in
  let addrs := (getaddresses (header_str <$> raw)).*2 in
  join ", " (sorted_set (List.filter truthy addrs)).

Definition _extract_name_and_email (addr_header : header_value)
    : result (string * string) :=
  '(name, email) ← match addr_header with
                    | HStr s => Ok (parseaddr s)
                    | HHeader h => parseaddr_Header h
                    end;
  Ok (name, lower email).

Definition _sender_domain (email : string) : string :=
  if contains "@" email then lower (last_item (split_1 "@" email)) else "".

(** [parsedate_to_datetime] starts with [data.split()], which a [Header]
    does not have: the [AttributeError] is caught like any failure to
    parse. *)
Definition _message_datetime (msg : Message) : string :=
  match get msg "Date" with
  | None => ""
  | Some (HHeader _) => ""
  | Some (HStr date_hdr) =>
      if negb (truthy date_hdr) then ""
      else match parsedate_to_datetime date_hdr with
           | Some dt => isoformat dt
           | None => ""
           end
  end.

End helpers.

(** *** Body extraction *)

Section body.
Context `{Library}.

(** [part.get("Content-Disposition")] names an attachment. *)
Definition is_attachment (part : Message) : bool :=
  let cdisp :=
    lower (header_str (default (HStr "") (get part "Content-Disposition"))) in
  contains "attachment" cdisp.

(** The [text/plain] arm, also used for a message that is not multipart:
    [get_content()], else the decoded payload, else nothing. *)
Definition plain_chunks (part : Message) : list string :=
  match get_content part with
  | Some c => [strip c]
  | None =>
      match payload_text part with
      | Some t => [strip t]
      | None => []
      end
  end.

(** The [text/html] arm: the fallback after [get_content()] is outside any
    [try]. *)
Definition html_chunks (part : Message) : result (list string) :=
  html ← match get_content part with
          | Some c => Ok c
          | None =>
              match payload_text part with
              | Some t => Ok t
              | None => Raise
              end
          end;
  Ok [strip (_html_to_text html)].

(** One iteration of [for part in msg.walk()]. *)
Definition body_part (part : Message) (text_chunks : list string)
    : result (list string) :=
  let ctype := lower (get_content_type part) in
  if is_attachment part then Ok text_chunks
  else if String.eqb ctype "text/plain" then Ok (text_chunks ++ plain_chunks part)
  else if String.eqb ctype "text/html" then
    c ← html_chunks part; Ok (text_chunks ++ c)
  else Ok text_chunks.

Fixpoint body_loop (parts : list Message) (text_chunks : list string)
    : result (list string) :=
  match parts with
  | [] => Ok text_chunks
  | part :: rest =>
      text_chunks' ← body_part part text_chunks;
      body_loop rest text_chunks'
  end.

Definition _get_body_text (msg : Message) : result string :=
  text_chunks ←
    (if is_multipart msg then body_loop (walk msg) []
     else Ok (plain_chunks msg));
  Ok (join (String "010" (String "010" "")) (List.filter truthy text_chunks)).

End body.

(** ** Configuration *)

Record Config : Type := {
  CUTOFF_UTC : datetime;
  IGNORE_DOMAINS : gset string;
  IGNORE_SENDERS : gset string;
  SUBJECT_PHRASE_IGNORE : string;
  SUBJECT_KEYWORDS_IGNORE : gset string
}.

(** The constants of the module. [CUTOFF_UTC] is midnight of 19 September
    2025 in Seoul (UTC+9) converted to UTC. *)
Definition config : Config := {|
  CUTOFF_UTC := mk_datetime 2025 9 18 15 0 0 (Some 0%Z);
  IGNORE_DOMAINS :=
    {[ "integrityokc.com"; "rosenbaumrealtygroup.com"; "coloradorpm.com" ]};
  IGNORE_SENDERS :=
    {[ "support@integrityokc.com"; "demo@kindredpm.ai"; "kindredsnyder@gmail.com" ]};
  SUBJECT_PHRASE_IGNORE := "kindred just flagged";
  SUBJECT_KEYWORDS_IGNORE := {[ "maintenance"; "wo_id" ]}
|}.

(** ** Exclusion rules *)

Section rules.
Context `{Library}.

(** [subject.lower()] raises on a subject that [_decode_header] left as a
    [Header]. *)
Definition subject_matches_ignores (cfg : Config) (subject : header_value)
    : result bool :=
  s ← header_lower subject;
  if contains (SUBJECT_PHRASE_IGNORE cfg) s then Ok true
  else Ok (existsb (λ w, contains w s) (elements (SUBJECT_KEYWORDS_IGNORE cfg))).

(** The inner loop of [is_in_spam_or_trash] over the values of one header:
    [Ok true] for [return True], [Ok false] when the loop runs to its end.
    [v.lower()] is called on every value reached. *)
Fixpoint spam_or_trash_in (vals : list header_value) : result bool :=
  match vals with
  | [] => Ok false
  | v :: vals' =>
      s ← header_lower v;
      if contains "spam" s || contains "trash" s then Ok true
      else spam_or_trash_in vals'
  end.

Fixpoint spam_or_trash_headers (msg : Message) (names : list string)
    : result bool :=
  match names with
  | [] => Ok false
  | header :: names' =>
      found ← spam_or_trash_in (get_all msg header);
      match found with
      | true => Ok true
      | false => spam_or_trash_headers msg names'
      end
  end.

Definition label_headers : list string :=
  ["X-GM-LABELS"; "X-Gmail-Labels"; "X-Folder"; "Folder"].

Definition is_in_spam_or_trash (msg : Message) : result bool :=
  spam_or_trash_headers msg label_headers.

End rules.

(** ** Rows and ingestion *)

Record Row : Type := {
  email : string;
  subject : header_value;
  date : string;
  full_email_chain : string;
  from_name : string;
  sender_domain : string;
  to : string;
  cc : string
}.

Section ingestion.
Context `{Library}.

(** The body of the loop of [parse_mbox_file]: [Ok None] when an ignore rule
    takes the [continue], [Ok (Some row)] when a row is appended, [Raise]
    when one of its lines raises: none of them stands in a [try]. *)
Definition parse_message (cfg : Config) (msg : Message) : result (option Row) :=
  '(from_name, from_email) ←
    _extract_name_and_email (default (HStr "") (get msg "From"));
  let subj := _decode_header (default (HStr "") (get msg "Subject")) in
  let date_iso := _message_datetime msg in
  spam ← is_in_spam_or_trash msg;
  match spam with
  | true => Ok None
  | false =>
      let dom := _sender_domain from_email in
      if bool_decide (dom ∈ IGNORE_DOMAINS cfg) then Ok None
      else if bool_decide (from_email ∈ IGNORE_SENDERS cfg) then Ok None
      else
        ignored ← subject_matches_ignores cfg subj;
        match ignored with
        | true => Ok None
        | false =>
            body_text ← _get_body_text msg;
            Ok (Some {| email := from_email;
                        subject := subj;
                        date := date_iso;
                        full_email_chain := body_text;
                        from_name := from_name;
                        sender_domain := dom;
                        to := _extract_addresses msg "To";
                        cc := _extract_addresses msg "Cc" |})
        end
  end.

Fixpoint parse_loop (cfg : Config) (mbox : list Message) (rows : list Row)
    : result (list Row) :=
  match mbox with
  | [] => Ok rows
  | msg :: rest =>
      r ← parse_message cfg msg;
      parse_loop cfg rest (match r with Some row => rows ++ [row] | None => rows end)
  end.

Definition parse_mbox_file (cfg : Config) (mbox : list Message) : result (list Row) :=
  parse_loop cfg mbox [].

End ingestion.

(** ** Conversation reduction (steps 3 and 4 of [main]) *)

(** [list.sort(key=lambda x: x.get('date', ''), reverse=True)]. The sort is
    stable, also with [reverse=True]: rows with equal dates keep their
    order. Every row built by [parse_mbox_file] has the ['date'] key. *)
Fixpoint insert_by_date (x : Row) (l : list Row) : list Row :=
  match l with
  | [] => [x]
  | y :: l' =>
      if String.ltb (date x) (date y) then y :: insert_by_date x l'
      else x :: l
  end.

Definition sort_by_date (l : list Row) : list Row := foldr insert_by_date [] l.

Fixpoint latest_loop (filtered_emails : list Row)
    (latest_emails_from_conversations : list Row)
    (processed_domains : gset string) : list Row :=
  match filtered_emails with
  | [] => latest_emails_from_conversations
  | email :: rest =>
      let domain := sender_domain email in
      if truthy domain && bool_decide (domain ∉ processed_domains)
      then latest_loop rest (latest_emails_from_conversations ++ [email])
                       ({[domain]} ∪ processed_domains)
      else latest_loop rest latest_emails_from_conversations processed_domains
  end.

Definition latest_emails (filtered_emails : list Row) : list Row :=
  latest_loop (sort_by_date filtered_emails) [] ∅.

(** [main] up to the hand-over to the analysis service: the rows kept by
    ingestion and the reduced rows, or [None] for the early return on an
    empty mailbox. *)
Definition main `{Library} (cfg : Config) (mbox : list Message)
    : result (option (list Row * list Row)) :=
  filtered_emails ← parse_mbox_file cfg mbox;
  match filtered_emails with
  | [] => Ok None
  | _ => Ok (Some (filtered_emails, latest_emails filtered_emails))
  end.

(** ** An instance of the library interface

    Exact on the plain ASCII inputs of the examples: bare addresses,
    unencoded headers, three sample dates. [parseaddr] answers [('', '')] on
    a [Header], as the parser that first tests for a [str] does. *)

Definition ascii_lower (c : ascii) : ascii :=
  let n := N_of_ascii c in
  if (65 <=? n)%N && (n <=? 90)%N then ascii_of_N (n + 32) else c.

Fixpoint lower_ascii (s : string) : string :=
  match s with
  | EmptyString => ""
  | String c s' => String (ascii_lower c) (lower_ascii s')
  end.

Fixpoint lstrip_ascii (s : string) : string :=
  match s with
  | EmptyString => ""
  | String c s' => if Ascii.is_space c then lstrip_ascii s' else s
  end.

Definition strip_ascii (s : string) : string :=
  String.rev (lstrip_ascii (String.rev (lstrip_ascii s))).

(** Removal of every [<...>] with at least one character between the
    brackets, leftmost first. The second component is the result for the text
    after the first [>], when there is one. *)
Fixpoint strip_tags_aux (s : string) : string * option string :=
  match s with
  | EmptyString => ("", None)
  | String c r =>
      let '(fr, ar) := strip_tags_aux r in
      let after := if Ascii.eqb c ">" then Some fr else ar in
      let here :=
        match r, ar with
        | String d _, Some x =>
            if Ascii.eqb c "<" && negb (Ascii.eqb d ">") then x else String c fr
        | _, _ => String c fr
        end in
      (here, after)
  end.

Definition strip_tags (s : string) : string := (strip_tags_aux s).1.

Definition sample_dates (s : string) : option datetime :=
  if String.eqb s "Thu, 02 Oct 2025 10:00:00 +0900"
  then Some (mk_datetime 2025 10 2 10 0 0 (Some 540%Z))
  else if String.eqb s "Thu, 02 Oct 2025 10:00:00 -0000"
  then Some (mk_datetime 2025 10 2 10 0 0 None)
  else if String.eqb s "Sun, 30 Feb 2025 10:00:00 +0000"
  then Some (mk_datetime 2025 2 30 10 0 0 (Some 0%Z))
  else None.

#[global] Instance ascii_library : Library := {|
  lower := lower_ascii;
  strip := strip_ascii;
  parseaddr := λ s, ("", s);
  parseaddr_Header := λ _, Ok ("", "");
  getaddresses := map (λ s, ("", s));
  make_header := Some;
  _parsedate_tz := sample_dates;
  feed := λ html, Some [strip_tags html];
  re_sub_tags := strip_tags
|}.

(** Sample messages; their headers are plain strings. *)
Definition str_headers (hs : list (string * string))
    : list (string * header_value) :=
  prod_map id HStr <$> hs.

Definition leaf (hs : list (string * string)) (ctype : string)
    (content payload : option string) : Message :=
  mk_message (str_headers hs) ctype content payload None.

Definition multipart (hs : list (string * string)) (parts : list Message) : Message :=
  mk_message (str_headers hs) "multipart/mixed" None None (Some parts).

(** A multipart message whose only part is HTML with no readable text, and
    the same message with the part typed as plain text. *)
Definition html_without_text : Message :=
  multipart [] [leaf [] "text/html" None None].

Definition plain_without_text : Message :=
  multipart [] [leaf [] "text/plain" None None].


(** A maintenance request, a message without a [From] header, a dated
    message, and a message made of a plain text part and an attached file. *)
Definition maintenance_request : Message :=
  leaf [("From", "tenant@example.com");
        ("Subject", "Maintenance request WO_ID 123")]
       "text/plain" None (Some "The tap is leaking.").

Definition no_from : Message :=
  leaf [("Subject", "Hello")] "text/plain" None (Some "Hi").

Definition dated : Message :=
  leaf [("Date", "Thu, 02 Oct 2025 10:00:00 +0900")] "text/plain" None (Some "Hi").





(** A message whose date names no zone. *)
Definition dated_without_zone : Message :=
  leaf [("Date", "Thu, 02 Oct 2025 10:00:00 -0000")] "text/plain" None (Some "Hi").

(** A label header with a byte that is not ASCII, which the mailbox hands out
    as a [Header] object (its text shows the byte as a question mark); a
    message that carries it, the same message with the label as a string, and
    messages without a [From] header. *)
Definition raw_label : header_value :=
  HHeader (mk_Header "Inbox,Caf?" (Some "Inbox,Caf?")).

Definition mail_with_raw_label : Message :=
  mk_message [("From", HStr "a@x.com"); ("Subject", HStr "Hello");
              ("X-Gmail-Labels", raw_label)]
             "text/plain" None (Some "Hi") None.

Definition mail_with_label : Message :=
  leaf [("From", "a@x.com"); ("Subject", "Hello"); ("X-Gmail-Labels", "Inbox,Cafe")]
       "text/plain" None (Some "Hi").

Definition no_from_raw_label : Message :=
  mk_message [("Subject", HStr "Hello"); ("X-Gmail-Labels", raw_label)]
             "text/plain" None (Some "Hi") None.

Definition no_from_html : Message :=
  multipart [("Subject", "Hello")] [leaf [] "text/html" None None].

(** The shipped configuration with one more blocked domain. *)
Definition config_more : Config := {|
  CUTOFF_UTC := CUTOFF_UTC config;
  IGNORE_DOMAINS := {[ "example.org" ]} ∪ IGNORE_DOMAINS config;
  IGNORE_SENDERS := IGNORE_SENDERS config;
  SUBJECT_PHRASE_IGNORE := SUBJECT_PHRASE_IGNORE config;
  SUBJECT_KEYWORDS_IGNORE := SUBJECT_KEYWORDS_IGNORE config
|}.

(** Two rows of one sender, the second one newer. *)
Definition row_of (addr domain date_iso : string) : Row := {|
  email := addr; subject := HStr ""; date := date_iso; full_email_chain := "";
  from_name := ""; sender_domain := domain; to := ""; cc := ""
|}.

Definition older_row : Row := row_of "a@x.com" "x.com" "2025-10-01T09:00:00+00:00".
Definition newer_row : Row := row_of "a@x.com" "x.com" "2025-10-02T09:00:00+00:00".

(** ** Vocabulary of the properties *)

(** [sub] occurs in [s] as a contiguous block. *)
Definition occurs_in (sub s : string) : Prop :=
  ∃ pre suf, s = pre +:+ sub +:+ suf.

(** [x] may stand before [y] in a list sorted by date, newest first. *)
Definition not_older (x y : Row) : Prop := (date y ≤ date x)%string.

(** One configuration blocks at least what another blocks. *)
Definition config_le (cfg cfg' : Config) : Prop :=
  IGNORE_DOMAINS cfg ⊆ IGNORE_DOMAINS cfg' ∧
  IGNORE_SENDERS cfg ⊆ IGNORE_SENDERS cfg' ∧
  SUBJECT_KEYWORDS_IGNORE cfg ⊆ SUBJECT_KEYWORDS_IGNORE cfg' ∧
  SUBJECT_PHRASE_IGNORE cfg = SUBJECT_PHRASE_IGNORE cfg'.

(** The configuration with another cutoff instant. *)
Definition with_cutoff (cutoff : datetime) (cfg : Config) : Config := {|
  CUTOFF_UTC := cutoff;
  IGNORE_DOMAINS := IGNORE_DOMAINS cfg;
  IGNORE_SENDERS := IGNORE_SENDERS cfg;
  SUBJECT_PHRASE_IGNORE := SUBJECT_PHRASE_IGNORE cfg;
  SUBJECT_KEYWORDS_IGNORE := SUBJECT_KEYWORDS_IGNORE cfg
|}.

Section vocabulary.
Context `{Library}.

(** *** The fields of a message and the rules, in the words of the
    specification

    None of these definitions uses a function of the pipeline: they read the
    headers of the message and call the library. *)

(** The text of a header: the [str()] of its first value, empty when the
    message has no such header. *)
Definition header_text (msg : Message) (name : string) : string :=
  header_str (default (HStr "") (get msg name)).

(** The sender address: the address part of the [From] header,
    lower-cased. *)
Definition spec_sender_email (msg : Message) : string :=
  lower (parseaddr (header_text msg "From")).2.

(** [d] is the sender domain of the address [addr]: what follows the first
    [@] of the address, lower-cased, and the empty string for an address
    without [@]. *)
Definition spec_sender_domain (addr d : string) : Prop :=
  (∃ pre post, addr = pre +:+ "@" +:+ post ∧ ¬ occurs_in "@" pre ∧
               d = lower post) ∨
  (¬ occurs_in "@" addr ∧ d = "").

(** The decoded subject: the [Subject] header decoded by the rules for MIME
    headers, the raw text when decoding fails, the empty string for an absent
    or empty subject. *)
Definition spec_subject (msg : Message) : string :=
  let raw := header_text msg "Subject" in
  if decide (raw = "") then "" else default raw (make_header raw).

(** The four exclusion rules. *)
Definition rule_label (msg : Message) : Prop :=
  ∃ header v,
    header ∈ ["X-GM-LABELS"; "X-Gmail-Labels"; "X-Folder"; "Folder"] ∧
    v ∈ get_all msg header ∧
    (occurs_in "spam" (lower (header_str v)) ∨
     occurs_in "trash" (lower (header_str v))).

Definition rule_domain (cfg : Config) (msg : Message) : Prop :=
  ∃ d, spec_sender_domain (spec_sender_email msg) d ∧ d ∈ IGNORE_DOMAINS cfg.

Definition rule_sender (cfg : Config) (msg : Message) : Prop :=
  spec_sender_email msg ∈ IGNORE_SENDERS cfg.

Definition rule_subject_phrase (cfg : Config) (msg : Message) : Prop :=
  occurs_in (SUBJECT_PHRASE_IGNORE cfg) (lower (spec_subject msg)).

Definition rule_subject_keyword (cfg : Config) (msg : Message) : Prop :=
  ∃ w, w ∈ SUBJECT_KEYWORDS_IGNORE cfg ∧
       occurs_in w (lower (spec_subject msg)).

Definition rule_subject (cfg : Config) (msg : Message) : Prop :=
  rule_subject_phrase cfg msg ∨ rule_subject_keyword cfg msg.

Definition excluded_by_rules (cfg : Config) (msg : Message) : Prop :=
  rule_label msg ∨ rule_domain cfg msg ∨ rule_sender cfg msg
  ∨ rule_subject cfg msg.

(** The value is a [str]. *)
Definition is_str (v : header_value) : bool :=
  match v with
  | HStr _ => true
  | HHeader _ => false
  end.

(** The [From] header, the [Subject] header and the label headers of the
    message are plain strings: none of them came out of the mailbox as a
    [Header] object. *)
Definition plain_fields (msg : Message) : Prop :=
  forallb is_str
    (option_list (get msg "From") ++ option_list (get msg "Subject") ++
     concat (get_all msg <$> label_headers)) = true.

(** A part on which the [text/html] arm of the body loop raises. *)
Definition html_part_without_text (part : Message) : Prop :=
  is_attachment part = false ∧
  lower (get_content_type part) = "text/html" ∧
  get_content part = None ∧ payload_text part = None.


End vocabulary.

(** ** Vocabulary of the further properties *)

Section ingestion_vocabulary.
Context `{Library}.

(** The row a message contributes to ingestion, if any. *)
Definition kept_row (cfg : Config) (msg : Message) : option Row :=
  match parse_message cfg msg with
  | Ok (Some row) => Some row
  | _ => None
  end.

(** No exclusion rule matches the message. *)
Definition passes_rules (cfg : Config) (msg : Message) : Prop :=
  ¬ excluded_by_rules cfg msg.

End ingestion_vocabulary.

(** Strict order of strings, as [<] compares two [str]. *)
Definition str_lt (a b : string) : Prop := String.ltb a b = true.

(** Lexicographic combination of two comparisons. *)
Definition lex (c1 c2 : comparison) : comparison :=
  match c1 with
  | Eq => c2
  | _ => c1
  end.

(** Comparison of two datetimes field by field, which is how two datetimes
    with the same offset compare. *)
Definition datetime_compare (a b : datetime) : comparison :=
  lex (year a ?= year b)%Z
 (lex (month a ?= month b)%Z
 (lex (day a ?= day b)%Z
 (lex (hour a ?= hour b)%Z
 (lex (minute a ?= minute b)%Z
      (second a ?= second b)%Z)))).

(** ** Analysis, drafting and the table (steps 5 to 7 of [main]) *)

(** A value as [json.loads] builds it; numbers are integers here. A
    dictionary keeps its entries in insertion order. *)
#[local] Unset Elimination Schemes.
Inductive json : Type :=
  | JNull
  | JBool (b : bool)
  | JNum (n : Z)
  | JStr (s : string)
  | JList (l : list json)
  | JDict (d : list (string * json)).
#[local] Set Elimination Schemes.

(** Lookup and assignment in the entries of a dictionary. An assignment
    replaces the value of a key in place, or adds the key at the end. *)
Fixpoint dict_lookup (key : string) (d : list (string * json)) : option json :=
  match d with
  | [] => None
  | (k, v) :: d' => if String.eqb k key then Some v else dict_lookup key d'
  end.

Fixpoint dict_set (key : string) (v : json) (d : list (string * json))
    : list (string * json) :=
  match d with
  | [] => [(key, v)]
  | (k, v') :: d' =>
      if String.eqb k key then (k, v) :: d' else (k, v') :: dict_set key v d'
  end.

(** [x.keys()], [x[key]], [x.get(key, default)] and [x[key] = v] on a value
    that need not be a dictionary: the first two and the last raise on anything
    else ([AttributeError], [TypeError]), and [x[key]] raises [KeyError] on a
    missing key. *)
Definition py_keys (x : json) : result (list string) :=
  match x with
  | JDict d => Ok d.*1
  | _ => Raise
  end.

Definition py_getitem (x : json) (key : string) : result json :=
  match x with
  | JDict d => from_option Ok Raise (dict_lookup key d)
  | _ => Raise
  end.

Definition py_get (x : json) (key : string) (default : json) : result json :=
  match x with
  | JDict d => Ok (from_option id default (dict_lookup key d))
  | _ => Raise
  end.

Definition py_setitem (x : json) (key : string) (v : json) : result json :=
  match x with
  | JDict d => Ok (JDict (dict_set key v d))
  | _ => Raise
  end.

(** [l[0]] *)
Definition first_item (l : list string) : result string :=
  from_option Ok Raise (head l).

(** Truthiness of a value, and [x == s] for a string [s]. *)
Definition json_truthy (x : json) : bool :=
  match x with
  | JNull => false
  | JBool b => b
  | JNum n => negb (n =? 0)%Z
  | JStr s => truthy s
  | JList l => match l with [] => false | _ => true end
  | JDict d => match d with [] => false | _ => true end
  end.

Definition json_is_str (s : string) (x : json) : bool :=
  match x with
  | JStr s' => String.eqb s' s
  | _ => false
  end.

(** The text after the first occurrence of [pat] in [s], and the text before
    it. *)
Fixpoint drop_prefix (pat s : string) : option string :=
  match pat, s with
  | EmptyString, _ => Some s
  | String c pat', String d s' =>
      if Ascii.eqb c d then drop_prefix pat' s' else None
  | String _ _, EmptyString => None
  end.

Fixpoint after_first (pat s : string) : option string :=
  match drop_prefix pat s with
  | Some rest => Some rest
  | None =>
      match s with
      | EmptyString => None
      | String _ s' => after_first pat s'
      end
  end.

Fixpoint before_first (pat s : string) : option string :=
  if String.prefix pat s then Some ""
  else match s with
       | EmptyString => None
       | String c s' => String c <$> before_first pat s'
       end.

Definition fence_open : string := "```json" +:+ String "010" "{".
Definition fence_close : string := "}" +:+ String "010" "```".

(** [match.group(1)] for the search of [```json\n({.*?})\n```] with
    [re.DOTALL]: the braces and the text between the first opening fence and
    the first closing fence after it. *)
Definition json_group (text : string) : option string :=
  rest ← after_first fence_open text;
  inner ← before_first fence_close rest;
  Some ("{" +:+ inner +:+ "}").

(** The external services and the output streams. *)
Class Service : Type := {
  (** [client.models.generate_content(...).text] for call [i] of the analysis
      phase: the text ([None] for no text), or the message of the exception
      that the call raises *)
  analysis_text : nat → Row → option string + string;
  (** the same for call [i] of the drafting phase *)
  draft_text : nat → json → option string + string;
  (** [json.loads]; [None] for [JSONDecodeError], the one exception it is
      taken to raise *)
  json_loads : string → option json;
  (** [str(v)] for a value that is not a [str] *)
  py_str : json → string;
  (** [sys.stdout] can encode the text *)
  stdout_encodes : string → bool;
  (** the output file, opened with [encoding="utf-8-sig"], can encode the
      text *)
  file_encodes : string → bool
}.

Section services.
Context `{Service}.

(** Python's [None] is [JNull]. *)
Definition json_match (text : string) : json :=
  match json_group text with
  | Some group =>
      match json_loads group with
      | Some v => v
      | None => JNull
      end
  | None => JNull
  end.

(** [f"{v}"]: the value itself for a [str], its [str()] otherwise. *)
Definition format_value (v : json) : string :=
  match v with
  | JStr s => s
  | _ => py_str v
  end.

(** The body of the [try] of [analyze_and_research_emails] once the service
    has answered: [Ok None] on a [continue], [Ok (Some answer_dict)] when the
    answer is appended, [Raise] when a line raises. The last [print] stands
    before the [append]. The exceptions raised here are those of the
    interpreter, and their messages are plain ASCII. *)
Definition analyze_answer (text : option string) : result (option json) :=
  text ← from_option Ok Raise text;
  let answer_dict := json_match text in
  if negb (json_truthy answer_dict) || json_is_str "0" answer_dict then Ok None
  else
    ks ← py_keys answer_dict;
    key ← first_item ks;
    lead_data ← py_getitem answer_dict key;
    decision ← py_get lead_data "decision" (JStr "0");
    if json_is_str "0" decision then Ok None
    else if stdout_encodes key then Ok (Some answer_dict)
    else Raise.

(** One iteration of the loop for row [i]. The first [print], which shows
    the sender domain, stands outside the [try]. An exception in the [try] is
    caught; the handler prints its message and the loop goes on, unless that
    [print] raises in its turn. *)
Definition analyze_row (i : nat) (row : Row) : result (option json) :=
  if stdout_encodes (sender_domain row) then
    match analysis_text i row with
    | inl text =>
        match analyze_answer text with
        | Ok answer => Ok answer
        | Raise => Ok None
        end
    | inr e => if stdout_encodes e then Ok None else Raise
    end
  else Raise.

Fixpoint analyze_loop (i : nat) (emails : list Row) (investment_leads : list json)
    : result (list json) :=
  match emails with
  | [] => Ok investment_leads
  | row :: rest =>
      answer ← analyze_row i row;
      analyze_loop (S i) rest
        (match answer with
         | Some answer_dict => investment_leads ++ [answer_dict]
         | None => investment_leads
         end)
  end.

Definition analyze_and_research_emails (emails : list Row) : result (list json) :=
  analyze_loop 0 emails [].

(** One iteration of [draft_outreach_emails]: the first three lines, the
    [print] of the name among them, stand outside the [try]; both arms of the
    [try] store a draft in the lead and append it, the handler after it has
    printed the message of the exception. *)
Definition draft_lead (i : nat) (lead_data : json) : result json :=
  ks ← py_keys lead_data;
  key ← first_item ks;
  lead_details ← py_getitem lead_data key;
  name ← py_get lead_details "name" (JStr "Unknown");
  if stdout_encodes (format_value name) then
    match draft_text i lead_details with
    | inl drafted_email =>
        py_setitem lead_details "investment_email_draft"
                   (from_option JStr JNull drafted_email)
    | inr e =>
        if stdout_encodes e then
          py_setitem lead_details "investment_email_draft"
                     (JStr ("Error generating draft: " +:+ e))
        else Raise
    end
  else Raise.

Fixpoint draft_loop (i : nat) (leads : list json) (drafted_leads : list json)
    : result (list json) :=
  match leads with
  | [] => Ok drafted_leads
  | lead_data :: rest =>
      lead_details ← draft_lead i lead_data;
      draft_loop (S i) rest (drafted_leads ++ [lead_details])
  end.

Definition draft_outreach_emails (leads : list json) : result (list json) :=
  draft_loop 0 leads [].

(** A line printed while lead [i] is drafted cannot be encoded: the one that
    shows the name of the lead, or the one that shows the message of the
    exception raised by the service. *)
Definition draft_print_fails (i : nat) (details : list (string * json)) : Prop :=
  stdout_encodes
    (format_value (from_option id (JStr "Unknown") (dict_lookup "name" details)))
    = false ∨
  ∃ e, draft_text i (JDict details) = inr e ∧ stdout_encodes e = false.

(** The text the CSV writer produces for a cell: nothing for [None], the
    string itself, the [str()] of any other value. Quoting adds ASCII
    characters only. *)
Definition csv_field (v : json) : string :=
  match v with
  | JNull => ""
  | JStr s => s
  | _ => py_str v
  end.

(** [writer.writerow]: the line reaches the file when each of its fields can
    be encoded, [UnicodeEncodeError] otherwise. *)
Definition writerow (fields : list string) : result () :=
  if forallb file_encodes fields then Ok () else Raise.

(** [fieldnames.update(row.keys())] for every row. *)
Fixpoint collect_keys (data : list json) (fieldnames : list string)
    : result (list string) :=
  match data with
  | [] => Ok fieldnames
  | row :: rest =>
      ks ← py_keys row;
      collect_keys rest (fieldnames ++ ks)
  end.

(** [DictWriter._dict_to_list]: a row with a key outside the field names
    raises [ValueError]; a field the row lacks is written as the empty
    string. *)
Definition dict_to_list (fieldnames : list string) (rowdict : json)
    : result (list json) :=
  ks ← py_keys rowdict;
  if forallb (λ k, bool_decide (k ∈ fieldnames)) ks
  then Ok ((λ key, from_option id (JStr "")
                     (match rowdict with
                      | JDict d => dict_lookup key d
                      | _ => None
                      end)) <$> fieldnames)
  else Raise.

(** [writer.writerows]: every row is turned into a line and written. *)
Fixpoint writerows (fieldnames : list string) (data : list json)
    : result (list (list json)) :=
  match data with
  | [] => Ok []
  | row :: rest =>
      line ← dict_to_list fieldnames row;
      _ ← writerow (csv_field <$> line);
      lines ← writerows fieldnames rest;
      Ok (line :: lines)
  end.

(** [write_to_csv]: the header and the lines written to the file, or [None]
    when there is no data and no file is written. [writeheader] writes the
    field names as a line of its own. *)
Definition write_to_csv (data : list json)
    : result (option (list string * list (list json))) :=
  match data with
  | [] => Ok None
  | _ =>
      fieldnames ← collect_keys data [];
      let sorted_fieldnames := sorted_set fieldnames in
      _ ← writerow sorted_fieldnames;
      lines ← writerows sorted_fieldnames data;
      Ok (Some (sorted_fieldnames, lines))
  end.

End services.

(** [main] from the mailbox to the table: [None] for each of its early
    returns. *)
Definition main_to_csv `{Library} `{Service} (cfg : Config) (mbox : list Message)
    : result (option (list string * list (list json))) :=
  r ← main cfg mbox;
  match r with
  | None => Ok None
  | Some (_, latest_emails_from_conversations) =>
      investment_leads ← analyze_and_research_emails latest_emails_from_conversations;
      match investment_leads with
      | [] => Ok None
      | _ =>
          final_data ← draft_outreach_emails investment_leads;
          write_to_csv final_data
      end
  end.

(** A lead that [draft_outreach_emails] can handle: a dictionary whose first
    value is a dictionary. *)
Definition lead_shape (lead : json) : Prop :=
  ∃ key details rest, lead = JDict ((key, JDict details) :: rest).

(** Sample services: the first row analysed is a lead, and no draft can be
    generated. *)
Definition sample_answer : json :=
  JDict [("Acme Capital",
          JDict [("name", JStr "Acme Capital"); ("decision", JStr "1")])].

#[global] Instance sample_service : Service := {|
  analysis_text := λ i _,
    match i with
    | O => inl (Some ("Here it is:" +:+ String "010" fence_open +:+ "..."
                      +:+ fence_close))
    | _ => inr "deadline exceeded"
    end;
  draft_text := λ _ _, inr "quota exceeded";
  json_loads := λ s, if String.eqb s "{...}" then Some sample_answer else None;
  py_str := λ _, "...";
  stdout_encodes := λ _, true;
  file_encodes := λ _, true
|}.

(** The value is a dictionary. *)
Definition is_dict (x : json) : Prop := ∃ d, x = JDict d.

(** The first occurrence of [pat] in [s] starts right after [pre]: no
    occurrence starts earlier. *)
Definition first_at (pat pre s : string) : Prop :=
  ∀ a b, s = a +:+ pat +:+ b → String.length pre ≤ String.length a.

(** More sample data: a message that passes the rules of the shipped
    configuration, a small archive, a configuration with an empty ignore
    phrase, two rows of one domain with the same date, two dates, and two
    messages with the same recipients in another order. *)
Definition mail_a : Message :=
  leaf [("From", "a@x.com"); ("Subject", "Hello")] "text/plain" None (Some "Hi").

Definition sample_mbox : list Message := [maintenance_request; mail_a; no_from].

Definition config_empty_phrase : Config := {|
  CUTOFF_UTC := CUTOFF_UTC config;
  IGNORE_DOMAINS := IGNORE_DOMAINS config;
  IGNORE_SENDERS := IGNORE_SENDERS config;
  SUBJECT_PHRASE_IGNORE := "";
  SUBJECT_KEYWORDS_IGNORE := SUBJECT_KEYWORDS_IGNORE config
|}.

Definition first_of_tie : Row := row_of "a@x.com" "x.com" "2025-10-02T09:00:00+00:00".
Definition second_of_tie : Row := row_of "b@x.com" "x.com" "2025-10-02T09:00:00+00:00".

Definition first_of_october : datetime := mk_datetime 2025 10 1 9 0 0 (Some 0%Z).
Definition second_of_october : datetime := mk_datetime 2025 10 2 9 0 0 (Some 0%Z).

Definition to_b_then_a : Message :=
  leaf [("To", "b@x.com"); ("To", "a@x.com")] "text/plain" None None.
Definition to_a_b_a : Message :=
  leaf [("To", "a@x.com"); ("To", "b@x.com"); ("To", "a@x.com")]
       "text/plain" None None.

Definition sample_drafted : list json :=
  [JDict [("name", JStr "Acme Capital"); ("decision", JStr "1");
          ("investment_email_draft", JStr "Dear Acme")];
   JDict [("decision", JStr "1"); ("investment_email_draft", JNull);
          ("website", JStr "example.com")]].

(** A forwarded message attached as a container, and the parts around it. *)
Definition forwarded_text : Message :=
  leaf [] "text/plain" None (Some "Forwarded text").

Definition attached_message : Message :=
  mk_message
    (str_headers [("Content-Disposition", "attachment; filename=forwarded.eml")])
    "message/rfc822" None None (Some [forwarded_text]).

Definition cover_note : Message := leaf [] "text/plain" None (Some "Hello").

(** * Properties *)

#[local] Set Warnings "-clear-no-such-hyp".

(** ** Substrings *)

Lemma append_nil (t : string) : "" +:+ t = t.
Proof. reflexivity. Qed.

Lemma append_cons (c : ascii) (s t : string) :
  String c s +:+ t = String c (s +:+ t).
Proof. reflexivity. Qed.

Ltac simpl_append := rewrite ?append_cons, ?append_nil in *.

Lemma prefix_spec (sub s : string) :
  String.prefix sub s = true ↔ ∃ suf, s = sub +:+ suf.
Proof.
  revert s. induction sub as [|c sub IH]; intros s; simpl.
  - destruct s; simpl; split; eauto.
  - destruct s as [|d s]; simpl.
    + split; [done | intros [suf Hs]; done].
    + destruct (ascii_dec c d) as [->|Hne].
      * rewrite IH. split; intros [suf Hs]; exists suf; simpl_append; congruence.
      * split; [done | intros [suf Hs]; simpl_append; congruence].
Qed.

Lemma contains_eq (sub s : string) :
  contains sub s =
  String.prefix sub s ||
  match s with EmptyString => false | String _ s' => contains sub s' end.
Proof. by destruct s. Qed.

Lemma contains_spec (sub s : string) :
  contains sub s = true ↔ occurs_in sub s.
Proof.
  unfold occurs_in. induction s as [|c s IH]; rewrite contains_eq.
  - rewrite orb_false_r, prefix_spec. split.
    + intros [suf Hs]. by exists "", suf.
    + intros (pre & suf & Hs). destruct pre; simpl_append; [eauto | done].
  - rewrite orb_true_iff, prefix_spec, IH. split.
    + intros [[suf Hs] | (pre & suf & Hs)].
      * by exists "", suf.
      * exists (String c pre), suf. simpl_append. by rewrite Hs.
    + intros (pre & suf & Hs). destruct pre as [|d pre]; simpl_append.
      * left. eauto.
      * right. exists pre, suf. congruence.
Qed.

Lemma contains_false (sub s : string) :
  contains sub s = false ↔ ¬ occurs_in sub s.
Proof. rewrite <- contains_spec. by destruct (contains sub s). Qed.

Lemma no_at_cons (c : ascii) (s : string) :
  ¬ occurs_in "@" (String c s) → Ascii.eqb c "@" = false ∧ ¬ occurs_in "@" s.
Proof.
  intros Hno. split.
  - destruct (Ascii.eqb_spec c "@") as [->|]; [|done].
    destruct Hno. by exists "", s.
  - intros (pre & suf & ->). destruct Hno. by exists (String c pre), suf.
Qed.

Lemma split_1_at (pre post : string) :
  ¬ occurs_in "@" pre → split_1 "@" (pre +:+ "@" +:+ post) = [pre; post].
Proof.
  induction pre as [|c pre IH]; intros Hno; [done|].
  apply no_at_cons in Hno as [Hc Hno]. simpl_append. simpl. rewrite Hc.
  by rewrite (IH Hno).
Qed.

(** ** Ingestion keeps what [parse_message] keeps *)

Section ingestion_facts.
Context `{Library}.

Lemma parse_loop_rows (cfg : Config) (mbox : list Message) (acc rows : list Row) :
  parse_loop cfg mbox acc = Ok rows →
  ∀ row, row ∈ rows →
    row ∈ acc ∨ ∃ msg, msg ∈ mbox ∧ parse_message cfg msg = Ok (Some row).
Proof.
  revert acc. induction mbox as [|msg mbox IH]; intros acc Hloop row Hrow; simpl in Hloop.
  - left. congruence.
  - destruct (parse_message cfg msg) as [r|] eqn:Hmsg; [|done]. simpl in Hloop.
    destruct (IH _ Hloop row Hrow) as [Hacc | (msg' & Hin & Hmsg')].
    + destruct r as [row'|]; [|by left].
      apply elem_of_app in Hacc as [Hacc | ->%list_elem_of_singleton]; [by left|].
      right. exists msg. split; [left | done].
    + right. exists msg'. split; [by right | done].
Qed.

Lemma parse_mbox_file_rows (cfg : Config) (mbox : list Message) (rows : list Row) (row : Row) :
  parse_mbox_file cfg mbox = Ok rows → row ∈ rows →
  ∃ msg, msg ∈ mbox ∧ parse_message cfg msg = Ok (Some row).
Proof.
  intros Hloop Hrow.
  destruct (parse_loop_rows _ _ _ _ Hloop row Hrow) as [Hnil|]; [|done].
  by apply elem_of_nil in Hnil.
Qed.

Lemma bind_Ok {A B : Type} (x : A) (f : A → result B) : Ok x ≫= f = f x.
Proof. reflexivity. Qed.

Lemma bind_Raise {A B : Type} (f : A → result B) : Raise ≫= f = Raise.
Proof. reflexivity. Qed.

Lemma bind_eq_Ok {A B : Type} (m : result A) (f : A → result B) (b : B) :
  m ≫= f = Ok b ↔ ∃ a, m = Ok a ∧ f a = Ok b.
Proof. destruct m as [a|]; simpl; naive_solver. Qed.

(** What a kept row holds. *)
Lemma parse_message_row (cfg : Config) (msg : Message) (row : Row) :
  parse_message cfg msg = Ok (Some row) →
  ∃ name,
    _extract_name_and_email (default (HStr "") (get msg "From"))
      = Ok (name, email row) ∧
    sender_domain row = _sender_domain (email row) ∧
    subject row = _decode_header (default (HStr "") (get msg "Subject")) ∧
    date row = _message_datetime msg ∧
    _get_body_text msg = Ok (full_email_chain row).
Proof.
  unfold parse_message.
  destruct (_extract_name_and_email _) as [[name addr]|]; [|done].
  rewrite bind_Ok.
  destruct (is_in_spam_or_trash msg) as [[|]|]; [done| |done].
  rewrite bind_Ok. do 2 (case_bool_decide; [done|]).
  destruct (subject_matches_ignores cfg _) as [[|]|]; [done| |done].
  rewrite bind_Ok.
  destruct (_get_body_text msg) as [body|]; [|done].
  rewrite bind_Ok. intros [= <-]. by exists name.
Qed.

Lemma extract_name_and_email_Ok (v : header_value) (name addr : string) :
  _extract_name_and_email v = Ok (name, addr) →
  match v with
  | HStr s => addr = lower (parseaddr s).2
  | HHeader h => ∃ name' addr',
      parseaddr_Header h = Ok (name', addr') ∧ addr = lower addr'
  end.
Proof.
  unfold _extract_name_and_email. destruct v as [s|h].
  - rewrite bind_Ok. destruct (parseaddr s) as [n a]. by intros [= _ <-].
  - destruct (parseaddr_Header h) as [[n a]|]; [|done].
    rewrite bind_Ok. intros [= _ <-]. eauto.
Qed.

(** C4. The sender domain is the text of the sender address after its first
    [@], lower-cased, and is empty when the address has no [@]; every row
    produced by ingestion carries the domain derived from its own address,
    which is the lower-cased address that [parseaddr] finds in the [From]
    header of its message. *)
Theorem sender_domain_derived_from_email :
  (∀ pre post : string,
      ¬ occurs_in "@" pre →
      _sender_domain (pre +:+ "@" +:+ post) = lower post) ∧
  (∀ addr : string, ¬ occurs_in "@" addr → _sender_domain addr = "") ∧
  (∀ (cfg : Config) (mbox : list Message) (rows : list Row) (row : Row),
      parse_mbox_file cfg mbox = Ok rows → row ∈ rows →
      sender_domain row = _sender_domain (email row) ∧
      ∃ msg, msg ∈ mbox ∧
        match default (HStr "") (get msg "From") with
        | HStr s => email row = lower (parseaddr s).2
        | HHeader h => ∃ name addr,
            parseaddr_Header h = Ok (name, addr) ∧ email row = lower addr
        end).
Proof.
  split_and!.
  - intros pre post Hno. unfold _sender_domain.
    assert (contains "@" (pre +:+ "@" +:+ post) = true) as ->.
    { apply contains_spec. by exists pre, post. }
    by rewrite split_1_at.
  - intros addr Hno. unfold _sender_domain.
    by apply contains_false in Hno as ->.
  - intros cfg mbox rows row Hrows Hrow.
    destruct (parse_mbox_file_rows _ _ _ _ Hrows Hrow) as (msg & Hin & Hmsg).
    apply parse_message_row in Hmsg as (name & He & Hd & _).
    split; [done|]. exists msg. split; [done|].
    by apply extract_name_and_email_Ok in He.
Qed.

End ingestion_facts.

(** ** Rendering of dates *)

Ltac div_lia := Z.div_mod_to_equations; lia.

Lemma digit_value_digit (n : Z) : digit_value (digit n) = (n mod 10)%Z.
Proof.
  unfold digit. pose proof (Z.mod_pos_bound n 10 eq_refl) as Hm.
  generalize dependent (n mod 10)%Z. intros m Hm.
  assert (m = 0 ∨ m = 1 ∨ m = 2 ∨ m = 3 ∨ m = 4 ∨ m = 5 ∨ m = 6 ∨ m = 7
          ∨ m = 8 ∨ m = 9)%Z as Hcases by lia.
  repeat (destruct Hcases as [->|Hcases]; [reflexivity|]). by subst.
Qed.

Lemma is_digit_digit (n : Z) : is_digit (digit n) = true.
Proof.
  unfold is_digit. rewrite digit_value_digit.
  apply andb_true_intro. split; [apply Z.leb_le | apply Z.leb_le]; div_lia.
Qed.

Lemma read_digits_pad2 (acc n : Z) (rest : string) :
  read_digits 2 acc (pad2 n +:+ rest) = Some ((100 * acc + n mod 100)%Z, rest).
Proof.
  unfold pad2. rewrite !append_cons, append_nil. simpl.
  rewrite !is_digit_digit, !digit_value_digit. do 2 f_equal. div_lia.
Qed.

Lemma read_digits_pad4 (n : Z) (rest : string) :
  read_digits 4 0 (pad4 n +:+ rest) = Some ((n mod 10000)%Z, rest).
Proof.
  unfold pad4. rewrite !append_cons.
  change (read_digits 4 0 (String ?c (String ?c' ?s))) with
    (if is_digit c then
       if is_digit c'
       then read_digits 2 (10 * (10 * 0 + digit_value c) + digit_value c') s
       else None
     else None).
  rewrite !is_digit_digit, !digit_value_digit, read_digits_pad2.
  do 2 f_equal. div_lia.
Qed.

Lemma read_digits_pad2_small (n : Z) (rest : string) :
  (0 ≤ n < 100)%Z → read_digits 2 0 (pad2 n +:+ rest) = Some (n, rest).
Proof.
  intros Hn. rewrite read_digits_pad2. do 2 f_equal.
  rewrite Z.mod_small by done. lia.
Qed.

Lemma read_digits_pad4_small (n : Z) (rest : string) :
  (0 ≤ n < 10000)%Z → read_digits 4 0 (pad4 n +:+ rest) = Some (n, rest).
Proof. intros Hn. by rewrite read_digits_pad4, Z.mod_small. Qed.

Lemma expect_append (c : ascii) (rest : string) :
  expect c (String c "" +:+ rest) = Some rest.
Proof. rewrite append_cons, append_nil. simpl. by rewrite Ascii.eqb_refl. Qed.

Lemma append_nil_r (s : string) : s +:+ "" = s.
Proof. induction s as [|c s IH]; [done|]. by rewrite append_cons, IH. Qed.

Lemma days_in_month_le (y m : Z) : (days_in_month y m ≤ 31)%Z.
Proof. unfold days_in_month. repeat case_match; lia. Qed.

Lemma obind_Some {A B : Type} (x : A) (f : A → option B) : Some x ≫= f = f x.
Proof. reflexivity. Qed.

Ltac next_field := rewrite obind_Some; cbv beta iota.

(** The calendar of the reader is the calendar of [datetime]. *)
Lemma iso_leap_year_is_leap (y : Z) : iso_leap_year y = is_leap y.
Proof.
  unfold iso_leap_year, is_leap.
  destruct (Z.eqb_spec (y mod 400) 0) as [H400|H400];
    destruct (Z.eqb_spec (y mod 100) 0) as [H100|H100];
    destruct (Z.eqb_spec (y mod 4) 0) as [H4|H4]; simpl; try done;
    exfalso; div_lia.
Qed.

Lemma iso_month_length_days (y m : Z) :
  (1 ≤ m ≤ 12)%Z → iso_month_length y m = days_in_month y m.
Proof.
  intros Hm.
  assert (m = 1 ∨ m = 2 ∨ m = 3 ∨ m = 4 ∨ m = 5 ∨ m = 6 ∨ m = 7 ∨ m = 8
          ∨ m = 9 ∨ m = 10 ∨ m = 11 ∨ m = 12)%Z as Hcases by lia.
  unfold iso_month_length, days_in_month.
  repeat (destruct Hcases as [->|Hcases];
          [by rewrite ?iso_leap_year_is_leap|]).
  subst. done.
Qed.

Lemma read_offset_format (off : option Z) :
  match off with Some o => (-1440 < o < 1440)%Z | None => True end →
  read_offset (format_offset off) = Some off.
Proof.
  destruct off as [o|]; [|done]. intros Ho. unfold format_offset.
  set (hh := (Z.abs o / 60)%Z). set (mm := (Z.abs o mod 60)%Z).
  assert (0 ≤ hh ≤ 23)%Z as Hhh by (unfold hh; div_lia).
  assert (0 ≤ mm ≤ 59)%Z as Hmm by (unfold mm; div_lia).
  assert (∀ c, read_offset (String c (pad2 hh +:+ ":" +:+ pad2 mm)) =
               if Ascii.eqb c "+" then Some (Some (60 * hh + mm)%Z)
               else if Ascii.eqb c "-" && negb ((hh =? 0)%Z && (mm =? 0)%Z)
               then Some (Some (- (60 * hh + mm))%Z)
               else None) as Hread.
  { intros c. unfold read_offset.
    rewrite read_digits_pad2_small by lia. next_field.
    rewrite expect_append. next_field.
    rewrite <- (append_nil_r (pad2 mm)), read_digits_pad2_small by lia.
    next_field.
    rewrite (proj2 (Z.ltb_ge 23 hh)), (proj2 (Z.ltb_ge 59 mm)) by lia.
    done. }
  destruct (Z.ltb_spec o 0) as [Hneg|Hpos]; rewrite append_cons, append_nil, Hread.
  - simpl. assert (hh ≠ 0 ∨ mm ≠ 0)%Z as Hnz by (unfold hh, mm; div_lia).
    assert ((hh =? 0)%Z && (mm =? 0)%Z = false) as ->.
    { apply andb_false_iff. rewrite !Z.eqb_neq. done. }
    simpl. do 2 f_equal. unfold hh, mm. div_lia.
  - simpl. do 2 f_equal. unfold hh, mm. div_lia.
Qed.

(** Reading the rendering of a range-checked datetime gives the datetime
    back: the rendering is a valid ISO-8601 date-time, and it names an offset
    exactly when the datetime has one. *)
Lemma parse_iso8601_isoformat (dt : datetime) :
  valid_datetime dt = true → parse_iso8601 (isoformat dt) = Some dt.
Proof.
  unfold valid_datetime. rewrite !andb_true_iff.
  rewrite !Z.leb_le, !Z.ltb_lt.
  intros [[[[[[[[[[[[Hy1 Hy2] Hm1] Hm2] Hd1] Hd2] Hh1] Hh2] Hmi1] Hmi2] Hs1] Hs2] Hoff].
  pose proof (days_in_month_le (year dt) (month dt)).
  unfold parse_iso8601, isoformat.
  rewrite read_digits_pad4_small by lia. next_field.
  rewrite expect_append. next_field.
  do 4 (rewrite read_digits_pad2_small by lia; next_field;
        rewrite expect_append; next_field).
  rewrite read_digits_pad2_small by lia. next_field.
  rewrite read_offset_format.
  2:{ destruct (utcoffset dt) as [o|]; [|done].
      apply andb_true_iff in Hoff as [?%Z.ltb_lt ?%Z.ltb_lt]. lia. }
  next_field. rewrite iso_month_length_days by lia.
  rewrite (proj2 (Z.leb_le 1 (month dt))), (proj2 (Z.leb_le (month dt) 12)),
    (proj2 (Z.leb_le 1 (day dt))), (proj2 (Z.leb_le (day dt) _) Hd2),
    (proj2 (Z.leb_le (hour dt) 23)), (proj2 (Z.leb_le (minute dt) 59)),
    (proj2 (Z.leb_le (second dt) 59)) by lia.
  simpl. by destruct dt.
Qed.

Lemma new_datetime_valid (raw dt : datetime) :
  new_datetime raw = Some dt → valid_datetime dt = true.
Proof. unfold new_datetime. case_match; [by intros [= <-] | done]. Qed.

Section timestamps.
Context `{Library}.

Lemma parsedate_to_datetime_valid (data : string) (dt : datetime) :
  parsedate_to_datetime data = Some dt → valid_datetime dt = true.
Proof.
  unfold parsedate_to_datetime. destruct (_parsedate_tz data) as [raw|]; [|done].
  apply new_datetime_valid.
Qed.

(** C5, as amended. The timestamp of a message is the ISO-8601 rendering of
    the datetime parsed from its [Date] header, and it is empty when the
    header is absent, is not a string or does not parse. The rendering is a
    valid ISO-8601 date-time that denotes the parsed datetime; it names an
    offset from UTC exactly when the parsed datetime has one, which it has not
    when the parser reports no zone. An empty header gives an empty
    timestamp. In every case the timestamp is empty or valid, and computing
    it raises nothing ([_message_datetime] is a total function into
    strings). *)
Theorem message_datetime_iso_or_empty (msg : Message) :
  (get msg "Date" = None → _message_datetime msg = "") ∧
  (∀ h, get msg "Date" = Some (HHeader h) → _message_datetime msg = "") ∧
  (get msg "Date" = Some (HStr "") → _message_datetime msg = "") ∧
  (∀ date_hdr, get msg "Date" = Some (HStr date_hdr) →
     parsedate_to_datetime date_hdr = None → _message_datetime msg = "") ∧
  (∀ date_hdr dt, get msg "Date" = Some (HStr date_hdr) → date_hdr ≠ "" →
     parsedate_to_datetime date_hdr = Some dt →
     _parsedate_tz date_hdr = Some dt ∧
     _message_datetime msg = isoformat dt ∧
     parse_iso8601 (isoformat dt) = Some dt ∧
     (timezone_aware (isoformat dt) ↔ utcoffset dt ≠ None)) ∧
  (_message_datetime msg = "" ∨ is_iso8601 (_message_datetime msg) = true).
Proof.
  unfold _message_datetime. split_and!.
  - by intros ->.
  - by intros h ->.
  - by intros ->.
  - intros date_hdr -> ->. by destruct (negb _).
  - intros date_hdr dt -> Hne Hdt. unfold truthy.
    rewrite (proj2 (String.eqb_neq _ _) Hne), Hdt. simpl.
    pose proof (parse_iso8601_isoformat dt
                  (parsedate_to_datetime_valid _ _ Hdt)) as Hread.
    split_and!; [|done..|].
    + revert Hdt. unfold parsedate_to_datetime, new_datetime.
      destruct (_parsedate_tz date_hdr) as [raw|]; [|done]. simpl.
      case_match; [by intros [= <-] | done].
    + unfold timezone_aware. rewrite Hread. split.
      * intros (dt' & off & [= <-] & Hoff). congruence.
      * destruct (utcoffset dt) as [off|] eqn:Hoff; [|done]. eauto.
  - destruct (get msg "Date") as [[date_hdr|h]|]; [|by left..].
    destruct (negb _); [by left|].
    destruct (parsedate_to_datetime date_hdr) as [dt|] eqn:Hdt; [|by left].
    right. unfold is_iso8601.
    by rewrite (parse_iso8601_isoformat dt (parsedate_to_datetime_valid _ _ Hdt)).
Qed.

End timestamps.

(** ** Sorting by date, newest first *)

Lemma ltb_false_le (a b : string) : String.ltb a b = false ↔ (b ≤ a)%string.
Proof.
  unfold String.le, String.ltb, String.leb.
  rewrite (String.compare_antisym a b).
  destruct (String.compare b a); simpl; split; done.
Qed.

Lemma ltb_true_le (a b : string) : String.ltb a b = true → (a ≤ b)%string.
Proof.
  unfold String.le, String.ltb, String.leb.
  destruct (String.compare a b); simpl; done.
Qed.

Lemma insert_by_date_perm (x : Row) (l : list Row) :
  insert_by_date x l ≡ₚ x :: l.
Proof.
  induction l as [|y l IH]; simpl; [done|].
  case_match; [|done]. rewrite IH. apply Permutation_swap.
Qed.

Lemma sort_by_date_perm (l : list Row) : sort_by_date l ≡ₚ l.
Proof.
  induction l as [|x l IH]; simpl; [done|].
  by rewrite insert_by_date_perm, IH.
Qed.

Lemma insert_by_date_sorted (x : Row) (l : list Row) :
  StronglySorted not_older l → StronglySorted not_older (insert_by_date x l).
Proof.
  induction l as [|y l IH]; intros Hl; simpl.
  - repeat constructor.
  - apply StronglySorted_cons in Hl as [Hy Hl].
    destruct (String.ltb (date x) (date y)) eqn:Hlt.
    + apply StronglySorted_cons. split; [|by apply IH].
      rewrite insert_by_date_perm. constructor; [|done].
      by apply ltb_true_le.
    + apply ltb_false_le in Hlt.
      apply StronglySorted_cons. split; [|by apply StronglySorted_cons].
      constructor; [done|].
      eapply Forall_impl; [exact Hy|]. intros z Hz. unfold not_older in *.
      by etrans.
Qed.

Lemma sort_by_date_sorted (l : list Row) :
  StronglySorted not_older (sort_by_date l).
Proof.
  induction l as [|x l IH]; simpl; [constructor|].
  by apply insert_by_date_sorted.
Qed.

Lemma sort_by_date_id (l : list Row) :
  StronglySorted not_older l → sort_by_date l = l.
Proof.
  induction l as [|x l IH]; intros Hl; [done|].
  apply StronglySorted_cons in Hl as [Hx Hl]. simpl. rewrite (IH Hl).
  destruct l as [|y l]; [done|]. simpl.
  apply Forall_cons in Hx as [Hxy _].
  by apply ltb_false_le in Hxy as ->.
Qed.

Lemma ltb_irrefl (a : string) : String.ltb a a = false.
Proof. by apply ltb_false_le. Qed.

(** The sort is stable: rows with the same date keep their order. *)
Lemma insert_by_date_stable (d : string) (x : Row) (l : list Row) :
  filter (λ r, date r = d) (insert_by_date x l) =
  filter (λ r, date r = d) (x :: l).
Proof.
  induction l as [|y l IH]; [done|]. simpl.
  destruct (String.ltb (date x) (date y)) eqn:Hlt; [|done].
  rewrite (filter_cons _ y), IH, !(filter_cons _ x), (filter_cons _ y).
  repeat case_decide; try done.
  assert (date x = date y) as Heq by congruence.
  rewrite Heq, ltb_irrefl in Hlt. done.
Qed.

Lemma sort_by_date_stable (d : string) (l : list Row) :
  filter (λ r, date r = d) (sort_by_date l) = filter (λ r, date r = d) l.
Proof.
  induction l as [|x l IH]; [done|]. simpl.
  by rewrite insert_by_date_stable, !filter_cons, IH.
Qed.

(** ** One row per sender domain *)

Lemma truthy_spec (s : string) : truthy s = true ↔ s ≠ "".
Proof.
  unfold truthy. destruct (String.eqb_spec s ""); simpl; naive_solver.
Qed.

(** The test of step 4: the domain is not empty and was not seen before. *)
Lemma first_of_domain_spec (domain : string) (seen : gset string) :
  truthy domain && bool_decide (domain ∉ seen) = true ↔
  domain ≠ "" ∧ domain ∉ seen.
Proof. by rewrite andb_true_iff, truthy_spec, bool_decide_eq_true. Qed.

Lemma latest_loop_acc (l acc : list Row) (seen : gset string) :
  latest_loop l acc seen = acc ++ latest_loop l [] seen.
Proof.
  revert acc seen. induction l as [|x l IH]; intros acc seen; simpl.
  - by rewrite app_nil_r.
  - case_match.
    + rewrite (IH (acc ++ [x])), (IH [x]). by rewrite <- app_assoc.
    + apply IH.
Qed.

Lemma latest_loop_cons (x : Row) (l : list Row) (seen : gset string) :
  latest_loop (x :: l) [] seen =
  if truthy (sender_domain x) && bool_decide (sender_domain x ∉ seen)
  then x :: latest_loop l [] ({[sender_domain x]} ∪ seen)
  else latest_loop l [] seen.
Proof. simpl. case_match; [|done]. by rewrite latest_loop_acc. Qed.

Lemma latest_loop_elem (l : list Row) (seen : gset string) (r : Row) :
  r ∈ latest_loop l [] seen →
  r ∈ l ∧ sender_domain r ≠ "" ∧ sender_domain r ∉ seen.
Proof.
  revert seen. induction l as [|x l IH]; intros seen.
  - by intros ?%elem_of_nil.
  - rewrite latest_loop_cons.
    destruct (truthy _ && _) eqn:Hkeep.
    + apply first_of_domain_spec in Hkeep as [Hne Hnew].
      intros [->|Hr]%elem_of_cons; [by split_and!; [left|..]|].
      apply IH in Hr as (Hin & Hne' & [_ Hnew']%not_elem_of_union).
      by split_and!; [right|..].
    + intros Hr. apply IH in Hr as (Hin & Hne' & Hnew').
      by split_and!; [right|..].
Qed.

Lemma latest_loop_first (l : list Row) (seen : gset string) (r : Row) :
  r ∈ latest_loop l [] seen →
  ∃ l1 l2, l = l1 ++ r :: l2 ∧
    ∀ r', r' ∈ l1 → sender_domain r' ≠ sender_domain r.
Proof.
  revert seen. induction l as [|x l IH]; intros seen.
  - by intros ?%elem_of_nil.
  - rewrite latest_loop_cons.
    destruct (truthy _ && _) eqn:Hkeep.
    + intros [->|Hr]%elem_of_cons.
      * exists [], l. split; [done|]. by intros r' ?%elem_of_nil.
      * pose proof (latest_loop_elem _ _ _ Hr) as (_ & _ & Hnew).
        destruct (IH _ Hr) as (l1 & l2 & -> & Hl1).
        exists (x :: l1), l2. split; [done|].
        intros r' [->|Hr']%elem_of_cons; [|by apply Hl1].
        intros Heq. apply Hnew, elem_of_union_l, elem_of_singleton. done.
    + intros Hr.
      pose proof (latest_loop_elem _ _ _ Hr) as (_ & Hne & Hnew).
      destruct (IH _ Hr) as (l1 & l2 & -> & Hl1).
      exists (x :: l1), l2. split; [done|].
      intros r' [->|Hr']%elem_of_cons; [|by apply Hl1].
      intros Heq. rewrite <- Heq in Hne, Hnew.
      by rewrite (proj2 (first_of_domain_spec _ _)) in Hkeep.
Qed.

Lemma latest_loop_NoDup (l : list Row) (seen : gset string) :
  NoDup (sender_domain <$> latest_loop l [] seen).
Proof.
  revert seen. induction l as [|x l IH]; intros seen.
  - constructor.
  - rewrite latest_loop_cons. case_match; [|apply IH].
    rewrite fmap_cons. constructor; [|apply IH].
    intros (r & Heq & Hr)%list_elem_of_fmap.
    apply latest_loop_elem in Hr as (_ & _ & Hnew).
    apply Hnew, elem_of_union_l, elem_of_singleton. done.
Qed.

Lemma latest_loop_complete (l : list Row) (seen : gset string) (r : Row) :
  r ∈ l → sender_domain r ≠ "" → sender_domain r ∉ seen →
  ∃ r', r' ∈ latest_loop l [] seen ∧ sender_domain r' = sender_domain r.
Proof.
  revert seen. induction l as [|x l IH]; intros seen Hr Hne Hnew.
  - by apply elem_of_nil in Hr.
  - rewrite latest_loop_cons.
    destruct (truthy _ && _) eqn:Hkeep.
    + destruct (decide (sender_domain x = sender_domain r)) as [Heq|Hdiff].
      * exists x. split; [left | done].
      * apply elem_of_cons in Hr as [->|Hr]; [done|].
        destruct (IH ({[sender_domain x]} ∪ seen) Hr Hne) as (r' & Hr' & Heq).
        { apply not_elem_of_union. split; [|done].
          intros ?%elem_of_singleton. congruence. }
        exists r'. split; [by right | done].
    + apply elem_of_cons in Hr as [->|Hr].
      * by rewrite (proj2 (first_of_domain_spec _ _)) in Hkeep.
      * by apply IH.
Qed.

Lemma latest_loop_sorted (l : list Row) (seen : gset string) :
  StronglySorted not_older l → StronglySorted not_older (latest_loop l [] seen).
Proof.
  revert seen. induction l as [|x l IH]; intros seen Hl; [done|].
  apply StronglySorted_cons in Hl as [Hx Hl].
  rewrite latest_loop_cons. case_match; [|by apply IH].
  apply StronglySorted_cons. split; [|by apply IH].
  apply Forall_forall. intros r Hr%latest_loop_elem.
  rewrite Forall_forall in Hx. apply Hx, Hr.
Qed.

Lemma latest_loop_id (l : list Row) (seen : gset string) :
  NoDup (sender_domain <$> l) →
  (∀ r, r ∈ l → sender_domain r ≠ "" ∧ sender_domain r ∉ seen) →
  latest_loop l [] seen = l.
Proof.
  revert seen. induction l as [|x l IH]; intros seen Hnd Hl; [done|].
  rewrite fmap_cons in Hnd. apply NoDup_cons in Hnd as [Hx Hnd].
  rewrite latest_loop_cons.
  rewrite (proj2 (first_of_domain_spec _ _)) by (apply Hl; left).
  f_equal. apply IH; [done|]. intros r Hr.
  destruct (Hl r) as [Hne Hnew]; [by right|]. split; [done|].
  apply not_elem_of_union. split; [|done].
  intros Heq%elem_of_singleton. apply Hx, list_elem_of_fmap. by exists r.
Qed.

(** C1. The reduction keeps at most one row per sender domain and no row
    with an empty domain; a kept row comes from the input and no input row
    of its domain has a greater date; every non-empty domain of the input
    keeps a row. *)
Theorem latest_emails_one_per_domain (rows : list Row) :
  NoDup (sender_domain <$> latest_emails rows) ∧
  (∀ r, r ∈ latest_emails rows →
     r ∈ rows ∧ sender_domain r ≠ "" ∧
     ∀ r', r' ∈ rows → sender_domain r' = sender_domain r →
           (date r' ≤ date r)%string) ∧
  (∀ r, r ∈ rows → sender_domain r = "" → r ∉ latest_emails rows) ∧
  (∀ r, r ∈ rows → sender_domain r ≠ "" →
     ∃ r', r' ∈ latest_emails rows ∧ sender_domain r' = sender_domain r).
Proof.
  unfold latest_emails. split_and!.
  - apply latest_loop_NoDup.
  - intros r Hr.
    pose proof (latest_loop_elem _ _ _ Hr) as (Hin & Hne & _).
    rewrite sort_by_date_perm in Hin. split_and!; [done..|].
    intros r' Hr' Hdom.
    destruct (latest_loop_first _ _ _ Hr) as (l1 & l2 & Hsplit & Hl1).
    pose proof (sort_by_date_sorted rows) as Hsorted.
    rewrite <- (sort_by_date_perm rows), Hsplit in Hr'. rewrite Hsplit in Hsorted.
    apply elem_of_app in Hr' as [Hr'|Hr']; [by destruct (Hl1 r' Hr')|].
    apply StronglySorted_app_1_r, StronglySorted_cons in Hsorted as [Hr2 _].
    apply elem_of_cons in Hr' as [->|Hr']; [done|].
    rewrite Forall_forall in Hr2. by apply Hr2.
  - intros r _ Hempty Hr. by apply latest_loop_elem in Hr as (_ & ? & _).
  - intros r Hr Hne. apply latest_loop_complete; [|done|apply not_elem_of_empty].
    by rewrite sort_by_date_perm.
Qed.

(** C7. Reducing an already reduced list of rows gives the same list, row
    for row and in the same order. *)
Theorem latest_emails_idempotent (rows : list Row) :
  latest_emails (latest_emails rows) = latest_emails rows.
Proof.
  unfold latest_emails at 1.
  rewrite sort_by_date_id.
  - apply latest_loop_id; [apply latest_loop_NoDup|].
    intros r Hr%latest_loop_elem. split; [apply Hr | apply not_elem_of_empty].
  - apply latest_loop_sorted, sort_by_date_sorted.
Qed.

(** ** Exclusion rules *)

Section exclusion.
Context `{Library}.

Lemma existsb_elem_of {A : Type} (f : A → bool) (l : list A) :
  existsb f l = true ↔ ∃ x, x ∈ l ∧ f x = true.
Proof.
  rewrite existsb_exists. by setoid_rewrite list_elem_of_In.
Qed.

(** *** The sender domain *)

Lemma first_at_sign (s : string) :
  occurs_in "@" s →
  ∃ pre post, s = pre +:+ "@" +:+ post ∧ ¬ occurs_in "@" pre.
Proof.
  induction s as [|c s IH].
  - intros (pre & suf & Heq). by destruct pre.
  - intros Hocc. destruct (Ascii.eqb_spec c "@") as [->|Hc].
    + exists "", s. split; [done|]. intros (pre & suf & Heq). by destruct pre.
    + destruct IH as (pre & post & -> & Hpre).
      { destruct Hocc as (pre & suf & Heq). destruct pre as [|c' pre].
        - injection Heq as -> _. done.
        - injection Heq as _ ->. by exists pre, suf. }
      exists (String c pre), post. split; [done|].
      intros (a & b & Heq). destruct a as [|c' a].
      * injection Heq as -> _. done.
      * injection Heq as _ ->. destruct Hpre. by exists a, b.
Qed.

Lemma sender_domain_after_at (pre post : string) :
  ¬ occurs_in "@" pre → _sender_domain (pre +:+ "@" +:+ post) = lower post.
Proof.
  intros Hno. unfold _sender_domain.
  assert (contains "@" (pre +:+ "@" +:+ post) = true) as ->.
  { apply contains_spec. by exists pre, post. }
  by rewrite split_1_at.
Qed.

Lemma sender_domain_no_at (addr : string) :
  ¬ occurs_in "@" addr → _sender_domain addr = "".
Proof. intros Hno. unfold _sender_domain. by apply contains_false in Hno as ->. Qed.

(** [_sender_domain] computes the sender domain of the specification. *)
Lemma sender_domain_spec (addr d : string) :
  spec_sender_domain addr d ↔ d = _sender_domain addr.
Proof.
  unfold spec_sender_domain. split.
  - intros [(pre & post & -> & Hno & ->) | [Hno ->]].
    + by rewrite sender_domain_after_at.
    + by rewrite sender_domain_no_at.
  - intros ->. destruct (contains "@" addr) eqn:Hat.
    + apply contains_spec, first_at_sign in Hat as (pre & post & -> & Hno).
      left. exists pre, post. by rewrite sender_domain_after_at.
    + apply contains_false in Hat. right. by rewrite sender_domain_no_at.
Qed.

(** *** Messages whose fields are plain strings *)

Lemma forallb_is_str_default (o : option header_value) :
  forallb is_str (option_list o) = true →
  ∃ s, default (HStr "") o = HStr s.
Proof. destruct o as [[s|h]|]; simpl; [eauto | done | eauto]. Qed.

Lemma plain_fields_inv (msg : Message) :
  plain_fields msg →
  (∃ s, default (HStr "") (get msg "From") = HStr s) ∧
  (∃ s, default (HStr "") (get msg "Subject") = HStr s) ∧
  forallb is_str (concat (get_all msg <$> label_headers)) = true.
Proof.
  unfold plain_fields. rewrite !forallb_app, !andb_true_iff.
  intros (Hfrom & Hsubj & Hlabels).
  split_and!; [by apply forallb_is_str_default.. | done].
Qed.

Lemma extract_name_and_email_plain (msg : Message) :
  plain_fields msg →
  _extract_name_and_email (default (HStr "") (get msg "From")) =
  Ok ((parseaddr (header_text msg "From")).1, spec_sender_email msg).
Proof.
  intros ([s Hs] & _)%plain_fields_inv.
  unfold spec_sender_email, header_text, _extract_name_and_email.
  rewrite Hs, bind_Ok. simpl. by destruct (parseaddr s).
Qed.

Lemma decode_header_plain (msg : Message) :
  plain_fields msg →
  _decode_header (default (HStr "") (get msg "Subject")) = HStr (spec_subject msg).
Proof.
  intros (_ & [s Hs] & _)%plain_fields_inv.
  unfold spec_subject, header_text, _decode_header. rewrite Hs. simpl.
  unfold truthy. destruct (String.eqb_spec s "") as [->|Hne]; simpl.
  - done.
  - rewrite decide_False by done. by destruct (make_header s).
Qed.

Lemma spam_or_trash_in_plain (vals : list header_value) :
  forallb is_str vals = true →
  ∃ b, spam_or_trash_in vals = Ok b ∧
    (b = true ↔
     ∃ v, v ∈ vals ∧ (occurs_in "spam" (lower (header_str v)) ∨
                      occurs_in "trash" (lower (header_str v)))).
Proof.
  induction vals as [|v vals IH]; simpl.
  - intros _. exists false. split; [done|].
    split; [done | by intros (v & ?%elem_of_nil & _)].
  - intros [Hv Hvals]%andb_true_iff. destruct v as [s|h]; [|done].
    simpl. destruct (contains "spam" (lower s) || contains "trash" (lower s))
      eqn:Hhit.
    + exists true. split; [done|]. split; [|done]. intros _.
      exists (HStr s). split; [left|].
      apply orb_true_iff in Hhit. by rewrite <- !contains_spec.
    + destruct (IH Hvals) as (b & -> & Hb). exists b. split; [done|].
      rewrite Hb. apply orb_false_iff in Hhit as [Hs Ht].
      apply contains_false in Hs, Ht. split.
      * intros (v & Hin & Hv'). exists v. split; [by right | done].
      * intros (v & [->|Hin]%elem_of_cons & Hv'); [simpl in Hv'; tauto | eauto].
Qed.

Lemma spam_or_trash_headers_plain (msg : Message) (names : list string) :
  forallb is_str (concat (get_all msg <$> names)) = true →
  ∃ b, spam_or_trash_headers msg names = Ok b ∧
    (b = true ↔
     ∃ header v, header ∈ names ∧ v ∈ get_all msg header ∧
       (occurs_in "spam" (lower (header_str v)) ∨
        occurs_in "trash" (lower (header_str v)))).
Proof.
  induction names as [|name names IH].
  - intros _. exists false. split; [done|].
    split; [done | by intros (header & v & ?%elem_of_nil & _)].
  - rewrite fmap_cons, concat_cons, forallb_app.
    intros [Hname Hnames]%andb_true_iff. simpl.
    destruct (spam_or_trash_in_plain _ Hname) as (b & -> & Hb).
    rewrite bind_Ok. destruct b.
    + exists true. split; [done|]. split; [|done]. intros _.
      destruct (proj1 Hb eq_refl) as (v & Hin & Hv).
      exists name, v. split_and!; [left | done..].
    + destruct (IH Hnames) as (b & -> & Hb'). exists b. split; [done|].
      rewrite Hb'. split.
      * intros (header & v & Hin & Hv). exists header, v.
        split; [by right | done].
      * intros (header & v & [->|Hin]%elem_of_cons & Hv & Hocc); [|eauto].
        assert (false = true); [|done]. apply Hb. eauto.
Qed.

Lemma is_in_spam_or_trash_plain (msg : Message) :
  plain_fields msg →
  ∃ b, is_in_spam_or_trash msg = Ok b ∧ (b = true ↔ rule_label msg).
Proof.
  intros (_ & _ & Hlabels)%plain_fields_inv.
  apply spam_or_trash_headers_plain, Hlabels.
Qed.

Lemma subject_matches_ignores_str (cfg : Config) (s : string) :
  ∃ b, subject_matches_ignores cfg (HStr s) = Ok b ∧
    (b = true ↔
     occurs_in (SUBJECT_PHRASE_IGNORE cfg) (lower s) ∨
     ∃ w, w ∈ SUBJECT_KEYWORDS_IGNORE cfg ∧ occurs_in w (lower s)).
Proof.
  unfold subject_matches_ignores. simpl.
  destruct (contains (SUBJECT_PHRASE_IGNORE cfg) (lower s)) eqn:Hphrase.
  - exists true. split; [done|]. apply contains_spec in Hphrase. naive_solver.
  - eexists. split; [done|]. apply contains_false in Hphrase.
    rewrite existsb_elem_of.
    setoid_rewrite elem_of_elements. setoid_rewrite contains_spec.
    naive_solver.
Qed.

(** The rules can be decided by computation. *)
Lemma excluded_by_rules_dec (cfg : Config) (msg : Message) :
  excluded_by_rules cfg msg ↔
  existsb (λ header,
             existsb (λ v, contains "spam" (lower (header_str v))
                           || contains "trash" (lower (header_str v)))
                     (get_all msg header)) label_headers
  || bool_decide (_sender_domain (spec_sender_email msg) ∈ IGNORE_DOMAINS cfg)
  || bool_decide (spec_sender_email msg ∈ IGNORE_SENDERS cfg)
  || contains (SUBJECT_PHRASE_IGNORE cfg) (lower (spec_subject msg))
  || existsb (λ w, contains w (lower (spec_subject msg)))
             (elements (SUBJECT_KEYWORDS_IGNORE cfg)) = true.
Proof.
  unfold excluded_by_rules, rule_label, rule_domain, rule_sender, rule_subject,
    rule_subject_phrase, rule_subject_keyword.
  rewrite !orb_true_iff, !bool_decide_eq_true, !existsb_elem_of.
  setoid_rewrite existsb_elem_of. setoid_rewrite orb_true_iff.
  setoid_rewrite contains_spec. setoid_rewrite elem_of_elements.
  setoid_rewrite sender_domain_spec. unfold label_headers. naive_solver.
Qed.

(** On a message with plain fields, [parse_message] takes a [continue]
    exactly when one of the four rules holds. *)
Lemma parse_message_excluded (cfg : Config) (msg : Message) :
  plain_fields msg →
  parse_message cfg msg = Ok None ↔ excluded_by_rules cfg msg.
Proof.
  intros Hplain. unfold parse_message, excluded_by_rules.
  rewrite (extract_name_and_email_plain msg Hplain), bind_Ok.
  rewrite (decode_header_plain msg Hplain).
  destruct (is_in_spam_or_trash_plain msg Hplain) as (spam & -> & Hspam).
  rewrite bind_Ok, <- Hspam. clear Hspam.
  unfold rule_domain, rule_sender. setoid_rewrite sender_domain_spec.
  destruct (subject_matches_ignores_str cfg (spec_subject msg))
    as (ignored & Hignored & Hsubj).
  fold (rule_subject_phrase cfg msg) in Hsubj.
  fold (rule_subject_keyword cfg msg) in Hsubj.
  fold (rule_subject cfg msg) in Hsubj. rewrite <- Hsubj. clear Hsubj.
  destruct spam; [naive_solver|].
  case_bool_decide; [naive_solver|].
  case_bool_decide; [naive_solver|].
  rewrite Hignored, bind_Ok.
  destruct ignored; [naive_solver|].
  destruct (_get_body_text msg); simpl; naive_solver.
Qed.

(** When no rule holds, the message is kept with its extracted body, and
    [parse_message] raises if body extraction does. *)
Lemma parse_message_included (cfg : Config) (msg : Message) :
  plain_fields msg → ¬ excluded_by_rules cfg msg →
  match _get_body_text msg with
  | Ok body =>
      ∃ row, parse_message cfg msg = Ok (Some row) ∧
             email row = spec_sender_email msg ∧
             sender_domain row = _sender_domain (spec_sender_email msg) ∧
             subject row = HStr (spec_subject msg) ∧
             full_email_chain row = body
  | Raise => parse_message cfg msg = Raise
  end.
Proof.
  intros Hplain Hrules.
  assert (parse_message cfg msg ≠ Ok None) as Hnot
    by by rewrite parse_message_excluded.
  revert Hnot. unfold parse_message.
  rewrite (extract_name_and_email_plain msg Hplain), bind_Ok.
  rewrite (decode_header_plain msg Hplain).
  destruct (is_in_spam_or_trash_plain msg Hplain) as (spam & -> & _).
  rewrite bind_Ok. destruct spam; [done|].
  do 2 (case_bool_decide; [done|]).
  destruct (subject_matches_ignores_str cfg (spec_subject msg))
    as (ignored & -> & _).
  rewrite bind_Ok. destruct ignored; [done|]. intros _.
  destruct (_get_body_text msg) as [body|]; [|done].
  rewrite bind_Ok. eexists. split; [done|]. done.
Qed.

(** *** Any message *)

Lemma subject_matches_ignores_mono (cfg cfg' : Config) (subj : header_value) :
  SUBJECT_KEYWORDS_IGNORE cfg ⊆ SUBJECT_KEYWORDS_IGNORE cfg' →
  SUBJECT_PHRASE_IGNORE cfg = SUBJECT_PHRASE_IGNORE cfg' →
  subject_matches_ignores cfg subj = Ok true →
  subject_matches_ignores cfg' subj = Ok true.
Proof.
  intros Hkw Hphrase. unfold subject_matches_ignores. rewrite <- Hphrase.
  destruct (header_lower subj) as [s|]; [|done]. rewrite !bind_Ok.
  destruct (contains (SUBJECT_PHRASE_IGNORE cfg) s); [done|].
  intros [= Hex]. f_equal. apply existsb_elem_of.
  apply existsb_elem_of in Hex as (w & Hw & Hin).
  exists w. split; [|done]. apply elem_of_elements, Hkw.
  by apply elem_of_elements.
Qed.

(** The subject test returns or raises whatever the configuration. *)
Lemma subject_matches_ignores_returns (cfg cfg' : Config) (subj : header_value) :
  subject_matches_ignores cfg subj = Raise ↔
  subject_matches_ignores cfg' subj = Raise.
Proof.
  unfold subject_matches_ignores.
  destruct (header_lower subj) as [s|]; [|done]. rewrite !bind_Ok.
  by repeat case_match.
Qed.

Lemma parse_message_mono (cfg cfg' : Config) (msg : Message) :
  config_le cfg cfg' →
  parse_message cfg msg = Ok None → parse_message cfg' msg = Ok None.
Proof.
  intros (Hdom & Hsend & Hkw & Hphrase). unfold parse_message.
  destruct (_extract_name_and_email _) as [[name addr]|]; [|done].
  rewrite !bind_Ok.
  destruct (is_in_spam_or_trash msg) as [[|]|]; [done| |done].
  rewrite !bind_Ok.
  case_bool_decide as Hd.
  { intros _. by rewrite bool_decide_eq_true_2 by by apply Hdom. }
  case_bool_decide as Hs.
  { intros _. case_bool_decide; [done|].
    by rewrite bool_decide_eq_true_2 by by apply Hsend. }
  destruct (subject_matches_ignores cfg _) as [[|]|] eqn:Hsubj.
  - intros _. do 2 (case_bool_decide; [done|]).
    by rewrite (subject_matches_ignores_mono cfg cfg' _ Hkw Hphrase Hsubj).
  - rewrite bind_Ok. by destruct (_get_body_text msg).
  - done.
Qed.

(** C6. A message excluded under one configuration stays excluded under any
    configuration whose domain blocklist, sender blocklist and keyword set
    contain those of the first. *)
Theorem exclusion_monotone (cfg cfg' : Config) (msg : Message) :
  config_le cfg cfg' →
  parse_message cfg msg = Ok None → parse_message cfg' msg = Ok None.
Proof. apply parse_message_mono. Qed.

Lemma parse_message_cutoff (cutoff : datetime) (cfg : Config) (msg : Message) :
  parse_message (with_cutoff cutoff cfg) msg = parse_message cfg msg.
Proof. reflexivity. Qed.

Lemma parse_loop_cutoff (cutoff : datetime) (cfg : Config)
    (mbox : list Message) (rows : list Row) :
  parse_loop (with_cutoff cutoff cfg) mbox rows = parse_loop cfg mbox rows.
Proof.
  revert rows. induction mbox as [|msg mbox IH]; intros rows; [done|].
  simpl. rewrite parse_message_cutoff.
  destruct (parse_message cfg msg); simpl; [apply IH | done].
Qed.

(** C9. The cutoff instant of the configuration has no effect: the rows kept
    by ingestion and the reduced rows are the same for any two cutoffs. *)
Theorem cutoff_never_applied (cfg : Config) (cutoff1 cutoff2 : datetime)
    (mbox : list Message) :
  parse_mbox_file (with_cutoff cutoff1 cfg) mbox =
    parse_mbox_file (with_cutoff cutoff2 cfg) mbox ∧
  main (with_cutoff cutoff1 cfg) mbox = main (with_cutoff cutoff2 cfg) mbox.
Proof.
  unfold main, parse_mbox_file. by rewrite !parse_loop_cutoff.
Qed.

(** When [parseaddr] finds no address in the [From] header, neither
    blocklist of the shipped configuration excludes the message. *)
Lemma empty_sender_not_blocked (msg : Message) :
  (parseaddr (header_text msg "From")).2 = "" → lower "" = "" →
  spec_sender_email msg = "" ∧ _sender_domain (spec_sender_email msg) = "" ∧
  ¬ rule_domain config msg ∧ ¬ rule_sender config msg.
Proof.
  intros Haddr Hlower.
  assert (spec_sender_email msg = "") as Hfrom.
  { unfold spec_sender_email. by rewrite Haddr. }
  assert (_sender_domain (spec_sender_email msg) = "") as Hdom
    by by rewrite Hfrom.
  split_and!; [done..| |].
  - intros (d & ->%sender_domain_spec & Hd).
    rewrite Hdom in Hd. revert Hd. simpl. set_solver.
  - unfold rule_sender. rewrite Hfrom. simpl. set_solver.
Qed.

End exclusion.

(** ** Body extraction *)

Section body_facts.
Context `{Library}.

Lemma body_part_raise (part : Message) (text_chunks : list string) :
  body_part part text_chunks = Raise ↔ html_part_without_text part.
Proof.
  unfold body_part, html_part_without_text, html_chunks.
  destruct (is_attachment part); [naive_solver|].
  destruct (String.eqb_spec (lower (get_content_type part)) "text/plain") as [Hp|Hp].
  { rewrite Hp. naive_solver. }
  destruct (String.eqb_spec (lower (get_content_type part)) "text/html") as [Hh|Hh];
    [|naive_solver].
  destruct (get_content part); [simpl; naive_solver|].
  destruct (payload_text part); simpl; naive_solver.
Qed.

Lemma body_loop_raise (parts : list Message) (text_chunks : list string) :
  body_loop parts text_chunks = Raise ↔
  ∃ part, part ∈ parts ∧ html_part_without_text part.
Proof.
  revert text_chunks. induction parts as [|part parts IH]; intros text_chunks; simpl.
  - split; [done | by intros (part & ?%elem_of_nil & _)].
  - destruct (body_part part text_chunks) as [chunks|] eqn:Hpart; simpl.
    + rewrite IH. split.
      * intros (p & Hin & Hp). exists p. split; [by right | done].
      * intros (p & [->|Hin]%elem_of_cons & Hp); [|by exists p].
        apply body_part_raise with (text_chunks := text_chunks) in Hp. congruence.
    + split; [|done]. intros _. exists part. split; [left|].
      by apply body_part_raise in Hpart.
Qed.

(** Body extraction raises exactly on a multipart message holding an
    unflagged [text/html] part for which both ways of reading the text fail. *)
Lemma get_body_text_raise (msg : Message) :
  _get_body_text msg = Raise ↔
  is_multipart msg = true ∧
  ∃ part, part ∈ walk msg ∧ html_part_without_text part.
Proof.
  unfold _get_body_text. destruct (is_multipart msg).
  - rewrite <- (body_loop_raise _ []).
    destruct (body_loop (walk msg) []); simpl; naive_solver.
  - simpl. naive_solver.
Qed.





End body_facts.

(** *** Evaluations *)

(** C3. Body extraction raises on a multipart message whose [text/html] part
    has no readable text, while the same part typed [text/plain] contributes
    nothing and extraction returns. *)
Theorem body_text_html_part_raises :
  _get_body_text html_without_text = Raise ∧
  _get_body_text plain_without_text = Ok "".
Proof. split; reflexivity. Qed.


(** C5, as stated, fails: a [Date] header whose zone is written [-0000] is
    parsed to a datetime without offset, and the timestamp names no offset
    from UTC. *)
Lemma timestamp_without_zone :
  _message_datetime dated_without_zone = "2025-10-02T10:00:00" ∧
  ¬ timezone_aware (_message_datetime dated_without_zone).
Proof.
  split; [reflexivity|].
  intros (dt & off & Hread & Hoff). vm_compute in Hread.
  injection Hread as <-. discriminate Hoff.
Qed.

(** C2. No rule holds of a message whose label header came out of the
    mailbox as a [Header] object, yet the message is neither skipped nor
    kept: the label test raises. With the label as a string the message is
    kept. The same happens to a message that no rule excludes and whose
    [text/html] part has no readable text. The maintenance request is
    excluded, by the keyword rule and not by the phrase rule. *)
Theorem unexcluded_message_raises :
  (¬ excluded_by_rules config mail_with_raw_label ∧
   parse_message config mail_with_raw_label = Raise ∧
   ∃ row, parse_message config mail_with_label = Ok (Some row)) ∧
  (¬ excluded_by_rules config html_without_text ∧
   parse_message config html_without_text = Raise) ∧
  (rule_subject_keyword config maintenance_request ∧
   ¬ rule_subject_phrase config maintenance_request ∧
   parse_message config maintenance_request = Ok None).
Proof.
  split_and!.
  - rewrite excluded_by_rules_dec. vm_compute. discriminate.
  - reflexivity.
  - eexists. reflexivity.
  - rewrite excluded_by_rules_dec. vm_compute. discriminate.
  - reflexivity.
  - exists "maintenance". split; [set_solver|]. by apply contains_spec.
  - unfold rule_subject_phrase. by apply contains_false.
  - reflexivity.
Qed.

(** C10. A message without a [From] header that no rule excludes is kept
    with an empty address and an empty domain; but when its label header is
    a [Header] object, or its [text/html] part has no readable text, it is
    neither skipped nor kept: ingestion raises. *)
Theorem empty_sender_raises :
  (get no_from_raw_label "From" = None ∧
   ¬ excluded_by_rules config no_from_raw_label ∧
   parse_message config no_from_raw_label = Raise) ∧
  (get no_from_html "From" = None ∧
   ¬ excluded_by_rules config no_from_html ∧
   parse_message config no_from_html = Raise) ∧
  (get no_from "From" = None ∧
   ¬ excluded_by_rules config no_from ∧
   ∃ row, parse_message config no_from = Ok (Some row) ∧
          email row = "" ∧ sender_domain row = "").
Proof.
  split_and!; try reflexivity;
    try (rewrite excluded_by_rules_dec; vm_compute; discriminate).
  eexists. split_and!; reflexivity.
Qed.

(** ** Witnesses and examples *)

Lemma sender_domain_derived_from_email_witness :
  _sender_domain "a@x.com" = "x.com".
Proof.
  change (_sender_domain ("a" +:+ "@" +:+ "x.com") = lower "x.com").
  apply (proj1 sender_domain_derived_from_email "a" "x.com").
  by apply contains_false.
Defined.

Lemma message_datetime_iso_or_empty_witness :
  _message_datetime dated = "2025-10-02T10:00:00+09:00" ∧
  timezone_aware "2025-10-02T10:00:00+09:00".
Proof.
  destruct (proj1 (proj2 (proj2 (proj2 (proj2
                     (message_datetime_iso_or_empty dated)))))
              "Thu, 02 Oct 2025 10:00:00 +0900"
              (mk_datetime 2025 10 2 10 0 0 (Some 540%Z)))
    as (_ & Hts & _ & Haware); [reflexivity | discriminate | reflexivity |].
  split; [exact Hts|]. apply Haware. discriminate.
Defined.

Lemma latest_emails_one_per_domain_witness :
  newer_row ∈ [older_row; newer_row] ∧ sender_domain newer_row ≠ "" ∧
  ∀ r', r' ∈ [older_row; newer_row] →
        sender_domain r' = sender_domain newer_row →
        (date r' ≤ date newer_row)%string.
Proof.
  apply (proj1 (proj2 (latest_emails_one_per_domain [older_row; newer_row]))).
  change (newer_row ∈ [newer_row]). left.
Defined.

Lemma exclusion_monotone_witness :
  config_le config config_more ∧
  parse_message config maintenance_request = Ok None ∧
  parse_message config_more maintenance_request = Ok None.
Proof.
  assert (config_le config config_more) as Hle.
  { split_and!; [apply union_subseteq_r | done..]. }
  split; [exact Hle|].
  split; [vm_compute; reflexivity|].
  apply (exclusion_monotone config config_more maintenance_request Hle).
  vm_compute; reflexivity.
Defined.


(** Two messages of one sender: only the newer row is kept. *)
Example latest_of_two : latest_emails [older_row; newer_row] = [newer_row].
Proof. reflexivity. Qed.

(** A label naming spam excludes the message whatever its other fields. *)
Example spam_label_excluded :
  parse_message config
    (leaf [("From", "friend@example.com"); ("X-Gmail-Labels", "Inbox,Spam")]
          "text/plain" None (Some "Hi")) = Ok None.
Proof. reflexivity. Qed.

(** A date whose fields are out of range gives an empty timestamp. *)
Example out_of_range_date :
  _message_datetime
    (leaf [("Date", "Sun, 30 Feb 2025 10:00:00 +0000")] "text/plain" None None) = "".
Proof. reflexivity. Qed.

(** A label that is a [Header] object is not reached when an earlier label
    names spam: the message is skipped. *)
Example spam_before_raw_label :
  parse_message config
    (mk_message [("From", HStr "friend@example.com");
                 ("X-Gmail-Labels", HStr "Spam");
                 ("X-Gmail-Labels", raw_label)]
                "text/plain" None (Some "Hi") None) = Ok None.
Proof. reflexivity. Qed.

(** * Further properties *)

(** ** Ingestion as a whole *)

Section ingestion_whole.
Context `{Library}.

Lemma parse_loop_acc (cfg : Config) (mbox : list Message) (acc : list Row) :
  parse_loop cfg mbox acc = rows ← parse_loop cfg mbox []; Ok (acc ++ rows).
Proof.
  revert acc. induction mbox as [|msg mbox IH]; intros acc; simpl.
  - by rewrite app_nil_r.
  - destruct (parse_message cfg msg) as [[row|]|]; simpl; [| |done].
    + rewrite (IH (acc ++ [row])), (IH [row]).
      destruct (parse_loop cfg mbox []); simpl; [|done].
      by rewrite <- app_assoc.
    + apply IH.
Qed.

Lemma parse_mbox_file_cons (cfg : Config) (msg : Message) (mbox : list Message) :
  parse_mbox_file cfg (msg :: mbox) =
  r ← parse_message cfg msg;
  rows ← parse_mbox_file cfg mbox;
  Ok (match r with Some row => row :: rows | None => rows end).
Proof.
  unfold parse_mbox_file. simpl.
  destruct (parse_message cfg msg) as [[row|]|]; simpl; [| |done].
  - rewrite parse_loop_acc. by destruct (parse_loop cfg mbox []).
  - by destruct (parse_loop cfg mbox []).
Qed.

Lemma parse_message_raise (cfg : Config) (msg : Message) :
  plain_fields msg →
  parse_message cfg msg = Raise ↔
  passes_rules cfg msg ∧ _get_body_text msg = Raise.
Proof.
  intros Hplain. unfold passes_rules. split.
  - intros Hraise.
    assert (¬ excluded_by_rules cfg msg) as Hrules.
    { rewrite <- parse_message_excluded by done. congruence. }
    split; [done|].
    pose proof (parse_message_included cfg msg Hplain Hrules) as Hin.
    destruct (_get_body_text msg) as [body|]; [|done].
    destruct Hin as (row & Hrow & _). congruence.
  - intros [Hrules Hbody].
    pose proof (parse_message_included cfg msg Hplain Hrules) as Hin.
    by rewrite Hbody in Hin.
Qed.

(** Apart from the rules, the outcome for a message does not depend on the
    configuration. *)
Lemma parse_message_config (cfg cfg' : Config) (msg : Message) :
  parse_message cfg msg ≠ Ok None → parse_message cfg' msg ≠ Ok None →
  parse_message cfg msg = parse_message cfg' msg.
Proof.
  unfold parse_message.
  destruct (_extract_name_and_email _) as [[name addr]|]; [|done].
  rewrite !bind_Ok.
  destruct (is_in_spam_or_trash msg) as [[|]|]; [done| |done].
  rewrite !bind_Ok.
  do 2 (case_bool_decide; [done|]). do 2 (case_bool_decide; [done|]).
  pose proof (subject_matches_ignores_returns cfg cfg'
                (_decode_header (default (HStr "") (get msg "Subject")))) as Hsame.
  destruct (subject_matches_ignores cfg _) as [b|];
    destruct (subject_matches_ignores cfg' _) as [b'|]; simpl.
  - by destruct b, b'.
  - by discriminate (proj2 Hsame eq_refl).
  - by discriminate (proj1 Hsame eq_refl).
  - done.
Qed.

(** X1. Ingesting two archives one after the other gives the rows of the
    first followed by the rows of the second; it raises as soon as one of them
    raises. *)
Theorem parse_mbox_file_app (cfg : Config) (mbox1 mbox2 : list Message) :
  parse_mbox_file cfg (mbox1 ++ mbox2) =
  rows1 ← parse_mbox_file cfg mbox1;
  rows2 ← parse_mbox_file cfg mbox2;
  Ok (rows1 ++ rows2).
Proof.
  induction mbox1 as [|msg mbox1 IH].
  - simpl. by destruct (parse_mbox_file cfg mbox2).
  - rewrite <- app_comm_cons, !parse_mbox_file_cons, IH.
    destruct (parse_message cfg msg) as [r|]; simpl; [|done].
    destruct (parse_mbox_file cfg mbox1) as [rows1|]; simpl; [|done].
    destruct (parse_mbox_file cfg mbox2) as [rows2|]; simpl; [|done].
    by destruct r.
Qed.

Lemma parse_mbox_file_raise (cfg : Config) (mbox : list Message) :
  parse_mbox_file cfg mbox = Raise ↔
  ∃ msg, msg ∈ mbox ∧ parse_message cfg msg = Raise.
Proof.
  induction mbox as [|msg mbox IH].
  - split; [done | by intros (msg & ?%elem_of_nil & _)].
  - rewrite parse_mbox_file_cons.
    destruct (parse_message cfg msg) as [r|] eqn:Hmsg; simpl.
    + destruct (parse_mbox_file cfg mbox) as [rows|]; simpl.
      * split; [done|]. intros (m & [->|Hin]%elem_of_cons & Hm); [congruence|].
        assert (@Ok (list Row) rows = Raise) by (apply IH; eauto). done.
      * split; [|done]. intros _.
        destruct (proj1 IH eq_refl) as (m & Hin & Hm).
        exists m. split; [by right | done].
    + split; [|done]. intros _. exists msg. split; [left | done].
Qed.

(** X2. On an archive whose messages have plain [From], [Subject] and label
    headers, ingestion raises exactly when a message that no rule excludes is
    multipart with an unflagged [text/html] part whose text cannot be read;
    an excluded message never makes it raise. *)
Theorem parse_mbox_file_raises_iff (cfg : Config) (mbox : list Message) :
  Forall plain_fields mbox →
  parse_mbox_file cfg mbox = Raise ↔
  ∃ msg, msg ∈ mbox ∧ passes_rules cfg msg ∧ is_multipart msg = true ∧
         ∃ part, part ∈ walk msg ∧ html_part_without_text part.
Proof.
  intros Hplain. rewrite Forall_forall in Hplain.
  rewrite parse_mbox_file_raise. split.
  - intros (msg & Hin & Hraise). exists msg. split; [done|].
    apply parse_message_raise in Hraise as [Hpass Hbody]; [|by apply Hplain].
    by apply get_body_text_raise in Hbody.
  - intros (msg & Hin & Hpass & Hbody). exists msg. split; [done|].
    apply parse_message_raise; [by apply Hplain|].
    split; [done|]. by apply get_body_text_raise.
Qed.

(** X3. The rows of a successful ingestion are the rows of the messages
    that pass the rules, once each and in archive order. *)
Theorem parse_mbox_file_in_order (cfg : Config) (mbox : list Message)
    (rows : list Row) :
  parse_mbox_file cfg mbox = Ok rows →
  rows = omap (kept_row cfg) mbox ∧ length rows ≤ length mbox.
Proof.
  intros Hrows. assert (rows = omap (kept_row cfg) mbox) as ->.
  { revert rows Hrows. induction mbox as [|msg mbox IH]; intros rows.
    - by intros [= <-].
    - rewrite parse_mbox_file_cons.
      change (omap (kept_row cfg) (msg :: mbox)) with
        (match kept_row cfg msg with
         | Some row => row :: omap (kept_row cfg) mbox
         | None => omap (kept_row cfg) mbox
         end).
      unfold kept_row at 1.
      destruct (parse_message cfg msg) as [r|]; simpl; [|done].
      destruct (parse_mbox_file cfg mbox) as [rows'|]; simpl; [|done].
      intros [= <-]. rewrite <- (IH rows' eq_refl). by destruct r. }
  split; [done|]. clear Hrows.
  induction mbox as [|msg mbox IH]; [done|].
  change (omap (kept_row cfg) (msg :: mbox)) with
    (match kept_row cfg msg with
     | Some row => row :: omap (kept_row cfg) mbox
     | None => omap (kept_row cfg) mbox
     end).
  destruct (kept_row cfg msg); simpl; lia.
Qed.

Lemma omap_sublist {A B : Type} (f g : A → option B) (l : list A) :
  (∀ x, x ∈ l → g x = None ∨ g x = f x) →
  omap g l `sublist_of` omap f l.
Proof.
  induction l as [|x l IH]; intros Hfg; [done|]. simpl.
  assert (omap g l `sublist_of` omap f l) as Hl.
  { apply IH. intros y Hy. apply Hfg. by right. }
  destruct (Hfg x) as [-> | ->]; [left| |].
  - destruct (f x); [by apply sublist_cons | done].
  - destruct (f x); [by apply sublist_skip | done].
Qed.

(** X4. Enlarging the blocklists or the keyword set can only remove rows: if
    ingestion succeeds under a configuration, it succeeds under any larger
    one, and what it returns then is a sub-sequence of the former rows. *)
Theorem parse_mbox_file_monotone (cfg cfg' : Config) (mbox : list Message)
    (rows : list Row) :
  config_le cfg cfg' →
  parse_mbox_file cfg mbox = Ok rows →
  ∃ rows', parse_mbox_file cfg' mbox = Ok rows' ∧ rows' `sublist_of` rows.
Proof.
  intros Hle.
  pose proof (λ msg, parse_message_mono cfg cfg' msg Hle) as Hmono.
  revert rows. induction mbox as [|msg mbox IH]; intros rows.
  - intros [= <-]. by exists [].
  - rewrite !parse_mbox_file_cons.
    destruct (parse_message cfg msg) as [r|] eqn:Hmsg; simpl; [|done].
    destruct (parse_mbox_file cfg mbox) as [rows0|]; simpl; [|done].
    intros [= <-]. destruct (IH rows0 eq_refl) as (rows' & -> & Hsub). simpl.
    destruct r as [row|].
    + pose proof (parse_message_config cfg cfg' msg) as Hsame.
      rewrite Hmsg in Hsame.
      destruct (parse_message cfg' msg) as [[row'|]|]; simpl.
      * assert (row = row') as <- by (by injection Hsame).
        eexists. split; [done|]. by apply sublist_skip.
      * eexists. split; [done|]. by apply sublist_cons.
      * by discriminate Hsame.
    + rewrite (Hmono _ Hmsg). simpl. eauto.
Qed.

(** With an empty ignore phrase or an empty ignore keyword, the subject test
    succeeds whenever it returns. *)
Lemma empty_pattern_matches (cfg : Config) (subj : header_value) (ignored : bool) :
  SUBJECT_PHRASE_IGNORE cfg = "" ∨ "" ∈ SUBJECT_KEYWORDS_IGNORE cfg →
  subject_matches_ignores cfg subj = Ok ignored → ignored = true.
Proof.
  intros Hempty. unfold subject_matches_ignores.
  destruct (header_lower subj) as [s|]; [|done]. rewrite bind_Ok.
  assert (contains "" s = true) as Hin by (apply contains_spec; by exists "", s).
  destruct Hempty as [-> | Hkw].
  - rewrite Hin. by intros [= <-].
  - case_match; intros [= <-]; [done|].
    apply existsb_elem_of. exists "". split; [|done]. by apply elem_of_elements.
Qed.

(** X5. An empty ignore phrase, or an empty string among the ignore
    keywords, excludes every message: when ingestion returns, it returns no
    row, whatever the archive; and it does return an empty list on an archive
    whose messages have plain [From], [Subject] and label headers. *)
Theorem empty_subject_pattern_excludes_all (cfg : Config) (mbox : list Message) :
  SUBJECT_PHRASE_IGNORE cfg = "" ∨ "" ∈ SUBJECT_KEYWORDS_IGNORE cfg →
  (∀ rows, parse_mbox_file cfg mbox = Ok rows → rows = []) ∧
  (Forall plain_fields mbox → parse_mbox_file cfg mbox = Ok []).
Proof.
  intros Hempty.
  assert (∀ msg row, parse_message cfg msg ≠ Ok (Some row)) as Hnone.
  { intros msg row. unfold parse_message.
    destruct (_extract_name_and_email _) as [[name addr]|]; [|done].
    rewrite bind_Ok.
    destruct (is_in_spam_or_trash msg) as [[|]|]; [done| |done].
    rewrite bind_Ok. do 2 (case_bool_decide; [done|]).
    destruct (subject_matches_ignores cfg _) as [ignored|] eqn:Hsubj; [|done].
    by rewrite (empty_pattern_matches _ _ _ Hempty Hsubj). }
  split.
  - intros rows Hrows. destruct rows as [|row rows]; [done|].
    destruct (parse_mbox_file_rows cfg mbox _ row Hrows) as (msg & _ & Hmsg);
      [left|]. by apply Hnone in Hmsg.
  - intros Hplain. induction Hplain as [|msg mbox Hmsg _ IH]; [done|].
    rewrite parse_mbox_file_cons, IH.
    assert (parse_message cfg msg = Ok None) as ->; [|done].
    destruct (parse_message cfg msg) as [[row|]|] eqn:Hparse; [| done |].
    + by apply Hnone in Hparse.
    + apply parse_message_raise in Hparse as [Hpass _]; [|done].
      destruct Hpass. do 3 right.
      destruct Hempty as [Hphrase | Hkw].
      * left. unfold rule_subject_phrase. rewrite Hphrase.
        by exists "", (lower (spec_subject msg)).
      * right. exists "". split; [done|].
        by exists "", (lower (spec_subject msg)).
Qed.

(** X29. On a message whose [From], [Subject] and label headers are plain
    strings, ingestion skips the message exactly when one of the four rules
    of the specification holds; when none holds, the message is kept with
    the sender address and the subject of the specification and with its
    extracted body, and ingestion raises if body extraction does. *)
Theorem rules_decide_exclusion (cfg : Config) (msg : Message) :
  plain_fields msg →
  (parse_message cfg msg = Ok None ↔ excluded_by_rules cfg msg) ∧
  (¬ excluded_by_rules cfg msg →
     match _get_body_text msg with
     | Ok body =>
         ∃ row, parse_message cfg msg = Ok (Some row) ∧
                email row = spec_sender_email msg ∧
                spec_sender_domain (email row) (sender_domain row) ∧
                subject row = HStr (spec_subject msg) ∧
                full_email_chain row = body
     | Raise => parse_message cfg msg = Raise
     end).
Proof.
  intros Hplain. split; [by apply parse_message_excluded|].
  intros Hrules.
  pose proof (parse_message_included cfg msg Hplain Hrules) as Hin.
  destruct (_get_body_text msg) as [body|]; [|done].
  destruct Hin as (row & Hrow & He & Hd & Hs & Hb).
  exists row. split_and!; [done..| |done|done].
  apply sender_domain_spec. by rewrite He.
Qed.

(** X30. When [parseaddr] finds no address in the [From] header of a message
    with plain fields, neither blocklist of the shipped configuration
    excludes the message; if no label or subject rule holds either, the
    message is kept with an empty address and an empty domain, and ingestion
    raises if body extraction does. *)
Theorem empty_sender_kept (msg : Message) :
  plain_fields msg →
  (parseaddr (header_text msg "From")).2 = "" → lower "" = "" →
  (¬ rule_domain config msg ∧ ¬ rule_sender config msg) ∧
  (¬ rule_label msg → ¬ rule_subject config msg →
   match _get_body_text msg with
   | Ok body =>
       ∃ row, parse_message config msg = Ok (Some row) ∧
              email row = "" ∧ sender_domain row = "" ∧
              full_email_chain row = body
   | Raise => parse_message config msg = Raise
   end).
Proof.
  intros Hplain Haddr Hlower.
  destruct (empty_sender_not_blocked msg Haddr Hlower) as (He & Hd & Hrd & Hrs).
  split; [done|]. intros Hlabel Hsubj.
  assert (¬ excluded_by_rules config msg) as Hrules
    by (unfold excluded_by_rules; tauto).
  pose proof (parse_message_included config msg Hplain Hrules) as Hin.
  destruct (_get_body_text msg) as [body|]; [|done].
  destruct Hin as (row & Hrow & He' & Hd' & _ & Hb).
  exists row. split_and!; [done | congruence | congruence | done].
Qed.

End ingestion_whole.

(** ** Reduction as a whole *)

Lemma latest_loop_sublist (l : list Row) (seen : gset string) :
  latest_loop l [] seen `sublist_of` l.
Proof.
  revert seen. induction l as [|x l IH]; intros seen; [done|].
  rewrite latest_loop_cons. case_match.
  - apply sublist_skip, IH.
  - apply sublist_cons, IH.
Qed.

Lemma NoDup_fmap_eq {A B : Type} (f : A → B) (l : list A) (x y : A) :
  NoDup (f <$> l) → x ∈ l → y ∈ l → f x = f y → x = y.
Proof.
  induction l as [|z l IH]; intros Hnd Hx Hy Hxy.
  - by apply elem_of_nil in Hx.
  - rewrite fmap_cons in Hnd. apply NoDup_cons in Hnd as [Hz Hnd].
    apply elem_of_cons in Hx as [->|Hx]; apply elem_of_cons in Hy as [->|Hy].
    + done.
    + destruct Hz. rewrite Hxy. by apply list_elem_of_fmap_2.
    + destruct Hz. rewrite <- Hxy. by apply list_elem_of_fmap_2.
    + by apply IH.
Qed.

(** X6. Step 3 only reorders the rows: none is lost or duplicated, a newer
    date never stands after an older one, and rows with the same date keep
    their archive order. *)
Theorem sort_by_date_spec (rows : list Row) :
  sort_by_date rows ≡ₚ rows ∧
  StronglySorted not_older (sort_by_date rows) ∧
  ∀ d, filter (λ r, date r = d) (sort_by_date rows) =
       filter (λ r, date r = d) rows.
Proof.
  split_and!.
  - apply sort_by_date_perm.
  - apply sort_by_date_sorted.
  - intros d. apply sort_by_date_stable.
Qed.

(** X7. The reduced rows are a sub-sequence of the sorted rows, so they come
    newest conversation first. *)
Theorem latest_emails_newest_first (rows : list Row) :
  latest_emails rows `sublist_of` sort_by_date rows ∧
  StronglySorted not_older (latest_emails rows).
Proof.
  split.
  - apply latest_loop_sublist.
  - apply latest_loop_sorted, sort_by_date_sorted.
Qed.

(** X8. The number of reduced rows is the number of distinct non-empty
    sender domains of the input. *)
Theorem latest_emails_length (rows : list Row) :
  length (latest_emails rows) =
  size (list_to_set (filter (λ d, d ≠ "") (sender_domain <$> rows)) : gset string).
Proof.
  rewrite <- (length_fmap sender_domain).
  rewrite <- (size_list_to_set (C := gset string))
    by apply latest_loop_NoDup.
  f_equal. apply set_eq. intros d.
  rewrite !elem_of_list_to_set, list_elem_of_filter, !list_elem_of_fmap.
  unfold latest_emails. split.
  - intros (r & -> & Hr). apply latest_loop_elem in Hr as (Hin & Hne & _).
    rewrite sort_by_date_perm in Hin. eauto.
  - intros (Hne & r & -> & Hr).
    destruct (latest_loop_complete (sort_by_date rows) ∅ r) as (r' & Hr' & Heq);
      [by rewrite sort_by_date_perm | done | apply not_elem_of_empty |].
    eauto.
Qed.

(** X9. Ties are settled by archive order: a kept row is the first row of the
    input among those of its domain that carry its date. *)
Theorem latest_emails_tie_break (rows : list Row) (r : Row) :
  r ∈ latest_emails rows →
  head (filter (λ x, sender_domain x = sender_domain r ∧ date x = date r) rows)
  = Some r.
Proof.
  intros Hr.
  rewrite <- (list_filter_filter (λ x, sender_domain x = sender_domain r)
                (λ x, date x = date r)).
  rewrite <- sort_by_date_stable.
  destruct (latest_loop_first _ _ _ Hr) as (l1 & l2 & Hsplit & Hl1).
  rewrite Hsplit, list_filter_filter, filter_app.
  assert (filter (λ x, sender_domain x = sender_domain r ∧ date x = date r) l1
          = []) as ->.
  { clear Hsplit. induction l1 as [|x l1 IH]; [done|].
    rewrite filter_cons_False; [|intros [Hdom _]; by apply (Hl1 x); [left|]].
    apply IH. intros x' Hx'. apply Hl1. by right. }
  by rewrite filter_cons_True.
Qed.

(** X10. When no two rows carry the same date, the reduced rows do not depend
    on the order of the input. *)
Theorem latest_emails_order_independent (rows1 rows2 : list Row) :
  NoDup (date <$> rows1) → rows1 ≡ₚ rows2 →
  latest_emails rows1 = latest_emails rows2.
Proof.
  intros Hnd Hperm. unfold latest_emails. f_equal.
  apply (StronglySorted_unique_strong not_older);
    [|apply sort_by_date_sorted..|by rewrite !sort_by_date_perm].
  intros x1 x2 Hx1 Hx2 H12 H21.
  rewrite sort_by_date_perm in Hx1. rewrite sort_by_date_perm, <- Hperm in Hx2.
  apply (NoDup_fmap_eq date rows1); [done..|].
  unfold not_older in *. by apply (anti_symm String.le).
Qed.

Section reduction_of_ingestion.
Context `{Library}.

(** X11. Every row that [main] hands to the analysis comes from a message of
    the archive that passed the rules, and its sender address contains an
    [@]: a message without a sender address is ingested but never analysed. *)
Theorem main_analyses_addressed_rows (cfg : Config) (mbox : list Message)
    (filtered latest : list Row) (r : Row) :
  main cfg mbox = Ok (Some (filtered, latest)) → r ∈ latest →
  occurs_in "@" (email r) ∧ ∃ msg, msg ∈ mbox ∧ kept_row cfg msg = Some r.
Proof.
  unfold main. destruct (parse_mbox_file cfg mbox) as [rows|] eqn:Hrows; [|done].
  simpl. destruct rows as [|row0 rows]; [done|]. intros [= <- <-] Hr.
  apply latest_loop_elem in Hr as (Hin & Hne & _).
  rewrite sort_by_date_perm in Hin.
  destruct (parse_mbox_file_rows _ _ _ _ Hrows Hin) as (msg & Hmsg & Hrow).
  pose proof (parse_message_row _ _ _ Hrow) as (name & _ & Hd & _).
  split.
  - apply contains_spec. rewrite Hd in Hne.
    unfold _sender_domain in Hne. by destruct (contains "@" (email r)).
  - exists msg. split; [done|]. unfold kept_row. by rewrite Hrow.
Qed.

End reduction_of_ingestion.

(** ** Address lists *)

Lemma ltb_spec (a b : string) :
  String.ltb a b = true ↔ (a ≤ b)%string ∧ a ≠ b.
Proof.
  split.
  - intros Hlt. split; [by apply ltb_true_le|].
    intros ->. by rewrite ltb_irrefl in Hlt.
  - intros [Hle Hne]. destruct (String.ltb a b) eqn:Hlt; [done|].
    apply ltb_false_le in Hlt. destruct Hne. by apply (anti_symm String.le).
Qed.

Lemma str_lt_trans (a b c : string) : str_lt a b → str_lt b c → str_lt a c.
Proof.
  unfold str_lt. rewrite !ltb_spec. intros [Hab Hne] [Hbc Hne'].
  split; [by etrans|]. intros ->.
  destruct Hne. by apply (anti_symm String.le).
Qed.

Lemma elem_of_insert_uniq (x y : string) (l : list string) :
  y ∈ insert_uniq x l ↔ y = x ∨ y ∈ l.
Proof.
  induction l as [|z l IH]; simpl.
  - rewrite list_elem_of_singleton, elem_of_nil. naive_solver.
  - destruct (String.eqb_spec x z) as [->|Hne].
    + rewrite elem_of_cons. naive_solver.
    + destruct (String.ltb x z).
      * rewrite elem_of_cons. naive_solver.
      * rewrite !elem_of_cons, IH. naive_solver.
Qed.

Lemma insert_uniq_sorted (x : string) (l : list string) :
  StronglySorted str_lt l → StronglySorted str_lt (insert_uniq x l).
Proof.
  induction l as [|z l IH]; intros Hl; simpl.
  - repeat constructor.
  - destruct (String.eqb_spec x z) as [->|Hne]; [done|].
    pose proof Hl as Hl'. apply StronglySorted_cons in Hl' as [Hz Hl'].
    destruct (String.ltb x z) eqn:Hlt.
    + apply StronglySorted_cons. split; [|done]. constructor; [done|].
      eapply Forall_impl; [exact Hz|]. intros w Hw. by eapply str_lt_trans.
    + apply StronglySorted_cons. split; [|by apply IH].
      apply Forall_forall. intros w [->|Hw]%elem_of_insert_uniq.
      * apply ltb_spec. apply ltb_false_le in Hlt. split; [done|congruence].
      * rewrite Forall_forall in Hz. by apply Hz.
Qed.

Lemma elem_of_sorted_set (y : string) (l : list string) :
  y ∈ sorted_set l ↔ y ∈ l.
Proof.
  induction l as [|x l IH]; [done|]. simpl.
  rewrite elem_of_insert_uniq, IH, elem_of_cons. done.
Qed.

Lemma sorted_set_sorted (l : list string) : StronglySorted str_lt (sorted_set l).
Proof.
  induction l as [|x l IH]; simpl; [constructor|].
  by apply insert_uniq_sorted.
Qed.

Lemma str_lt_sorted_NoDup (l : list string) : StronglySorted str_lt l → NoDup l.
Proof.
  induction 1 as [|x l Hl IH Hx]; constructor; [|done].
  intros Hin. rewrite Forall_forall in Hx. specialize (Hx x Hin).
  unfold str_lt in Hx. by rewrite ltb_irrefl in Hx.
Qed.

Lemma sorted_set_same_elements (l1 l2 : list string) :
  (∀ a, a ∈ l1 ↔ a ∈ l2) → sorted_set l1 = sorted_set l2.
Proof.
  intros Hsame.
  apply (StronglySorted_unique_strong str_lt); [|apply sorted_set_sorted..|].
  - intros x1 x2 _ _ H12 H21. pose proof (str_lt_trans _ _ _ H12 H21) as Hxx.
    unfold str_lt in Hxx. by rewrite ltb_irrefl in Hxx.
  - apply NoDup_Permutation; [by apply str_lt_sorted_NoDup, sorted_set_sorted..|].
    intros a. by rewrite !elem_of_sorted_set.
Qed.

Lemma elem_of_filter_truthy (a : string) (l : list string) :
  a ∈ List.filter truthy l ↔ a ≠ "" ∧ a ∈ l.
Proof.
  rewrite !list_elem_of_In, filter_In, truthy_spec. naive_solver.
Qed.

Section addresses.
Context `{Library}.

(** X12. The recipients string joins, with a comma and a space, the
    non-empty addresses found by [getaddresses] in the values of the header
    (each taken as its [str()]), each address once and in strictly increasing
    order. *)
Theorem extract_addresses_sorted_distinct (msg : Message) (header_name : string) :
  ∃ l, _extract_addresses msg header_name = join ", " l ∧
       StronglySorted str_lt l ∧
       ∀ a, a ∈ l ↔
            a ≠ "" ∧
            a ∈ (getaddresses (header_str <$> get_all msg header_name)).*2.
Proof.
  eexists. split_and!; [reflexivity | apply sorted_set_sorted |].
  intros a. by rewrite elem_of_sorted_set, elem_of_filter_truthy.
Qed.

(** X13. The recipients string depends only on the set of non-empty
    addresses: their order in the header and their repetitions play no
    part. *)
Theorem extract_addresses_order_independent (msg1 msg2 : Message)
    (header_name : string) :
  (∀ a, a ≠ "" →
        a ∈ (getaddresses (header_str <$> get_all msg1 header_name)).*2 ↔
        a ∈ (getaddresses (header_str <$> get_all msg2 header_name)).*2) →
  _extract_addresses msg1 header_name = _extract_addresses msg2 header_name.
Proof.
  intros Hsame. unfold _extract_addresses. f_equal.
  apply sorted_set_same_elements. intros a.
  rewrite !elem_of_filter_truthy. naive_solver.
Qed.

End addresses.

(** ** Order of the rendered dates *)

Lemma compare_refl (s : string) : String.compare s s = Eq.
Proof.
  induction s as [|c s IH]; [done|]. simpl.
  unfold Ascii.compare. by rewrite N.compare_refl.
Qed.

Lemma compare_cons (c c' : ascii) (s t : string) :
  String.compare (String c s) (String c' t) =
  lex (Ascii.compare c c') (String.compare s t).
Proof. simpl. by destruct (Ascii.compare c c'). Qed.

Lemma compare_same_head (c : ascii) (s t : string) :
  String.compare (String c "" +:+ s) (String c "" +:+ t) = String.compare s t.
Proof.
  rewrite !append_cons, !append_nil, compare_cons.
  unfold Ascii.compare. by rewrite N.compare_refl.
Qed.

Lemma compare_digit (m n : Z) :
  Ascii.compare (digit m) (digit n) = (m mod 10 ?= n mod 10)%Z.
Proof.
  unfold Ascii.compare, digit.
  rewrite !N_ascii_embedding
    by (apply N2Z.inj_lt; rewrite Z2N.id; div_lia).
  rewrite Z2N.inj_compare by div_lia. apply Z.add_compare_mono_l.
Qed.

Lemma lex_digit (q q' d d' : Z) (c : comparison) :
  (0 ≤ d < 10)%Z → (0 ≤ d' < 10)%Z →
  lex (q ?= q')%Z (lex (d ?= d')%Z c) = lex (10 * q + d ?= 10 * q' + d')%Z c.
Proof.
  intros Hd Hd'.
  destruct (Z.compare_spec q q'), (Z.compare_spec d d'),
    (Z.compare_spec (10 * q + d) (10 * q' + d')); simpl; try done; lia.
Qed.

Lemma compare_pad2 (a b : Z) (s t : string) :
  String.compare (pad2 a +:+ s) (pad2 b +:+ t) =
  lex (a mod 100 ?= b mod 100)%Z (String.compare s t).
Proof.
  unfold pad2. rewrite !append_cons, !append_nil, !compare_cons, !compare_digit.
  rewrite lex_digit by div_lia. do 2 f_equal; div_lia.
Qed.

Lemma compare_pad4 (a b : Z) (s t : string) :
  String.compare (pad4 a +:+ s) (pad4 b +:+ t) =
  lex (a mod 10000 ?= b mod 10000)%Z (String.compare s t).
Proof.
  unfold pad4. rewrite !append_cons, !compare_cons, !compare_digit, compare_pad2.
  assert (∀ x, (x mod 100 = 10 * ((x / 10) mod 10) + x mod 10)%Z) as H100
    by (intros x; div_lia).
  rewrite (H100 a), (H100 b), <- lex_digit by div_lia.
  rewrite !lex_digit by div_lia. do 2 f_equal; div_lia.
Qed.

(** X14. Two range-checked datetimes with the same offset compare as their
    renderings compare as strings: sorting the timestamps of one time zone as
    text is sorting them by time. *)
Theorem isoformat_order (a b : datetime) :
  valid_datetime a = true → valid_datetime b = true →
  utcoffset a = utcoffset b →
  String.compare (isoformat a) (isoformat b) = datetime_compare a b.
Proof.
  unfold valid_datetime. rewrite !andb_true_iff, !Z.leb_le, !Z.ltb_lt.
  intros Ha Hb Hoff.
  pose proof (days_in_month_le (year a) (month a)).
  pose proof (days_in_month_le (year b) (month b)).
  unfold isoformat, datetime_compare. rewrite Hoff.
  rewrite compare_pad4, compare_same_head.
  do 4 rewrite compare_pad2, compare_same_head.
  rewrite compare_pad2, compare_refl.
  rewrite !(Z.mod_small _ 100), !(Z.mod_small _ 10000) by lia.
  by destruct (second a ?= second b)%Z.
Qed.

(** ** Body extraction over the part tree *)

Lemma walk_eq (msg : Message) :
  walk msg =
  msg :: match subparts msg with
         | Some parts => concat (walk <$> parts)
         | None => []
         end.
Proof.
  destruct msg as [hs ctype c p [parts|]]; simpl; [|done]. f_equal.
  induction parts as [|part parts IH]; [done|].
  rewrite fmap_cons. simpl. by rewrite IH.
Qed.

Section body_tree.
Context `{Library}.

Lemma body_loop_app (l1 l2 : list Message) (text_chunks : list string) :
  body_loop (l1 ++ l2) text_chunks =
  text_chunks' ← body_loop l1 text_chunks; body_loop l2 text_chunks'.
Proof.
  revert text_chunks. induction l1 as [|part l1 IH]; intros text_chunks; [done|].
  simpl. destruct (body_part part text_chunks); simpl; [apply IH | done].
Qed.

Lemma body_loop_cons (part : Message) (rest : list Message)
    (text_chunks : list string) :
  body_loop (part :: rest) text_chunks =
  text_chunks' ← body_part part text_chunks; body_loop rest text_chunks'.
Proof. reflexivity. Qed.

(** X15. Body extraction raises exactly on a multipart message that holds an
    unflagged [text/html] part for which both ways of reading the text fail;
    it returns on every message that is not multipart. *)
Theorem get_body_text_raises_iff (msg : Message) :
  (_get_body_text msg = Raise ↔
   is_multipart msg = true ∧
   ∃ part, part ∈ walk msg ∧ html_part_without_text part) ∧
  (is_multipart msg = false → ∃ body, _get_body_text msg = Ok body).
Proof.
  split; [apply get_body_text_raise|].
  intros Hsingle. destruct (_get_body_text msg) as [body|] eqn:Hbody; [eauto|].
  apply get_body_text_raise in Hbody as [Hmulti _]. congruence.
Qed.

(** X16. Skipping a part marked as an attachment does not skip what it
    contains: a multipart message with such a container among its parts has
    the body of the message in which the container is replaced by its own
    sub-parts. *)
Theorem attachment_container_children_read
    (hs : list (string * header_value)) (ctype : string) (c p : option string)
    (container : Message) (children before after : list Message) :
  is_attachment container = true →
  subparts container = Some children →
  _get_body_text (mk_message hs ctype c p (Some (before ++ container :: after))) =
  _get_body_text (mk_message hs ctype c p (Some (before ++ children ++ after))).
Proof.
  intros Hatt Hsub. unfold _get_body_text.
  assert (∀ parts, is_multipart (mk_message hs ctype c p (Some parts)) = true)
    as Hmulti by done.
  rewrite !Hmulti. f_equal.
  rewrite (walk_eq (mk_message _ _ _ _ (Some (before ++ container :: after)))),
    (walk_eq (mk_message _ _ _ _ (Some (before ++ children ++ after)))).
  cbn [subparts]. rewrite !body_loop_cons.
  change (body_part (mk_message hs ctype c p (Some (before ++ container :: after))) [])
    with (body_part (mk_message hs ctype c p (Some (before ++ children ++ after))) []).
  destruct (body_part _ []) as [chunks|]; simpl; [|done].
  rewrite !fmap_app, !concat_app, fmap_cons, concat_cons, !body_loop_app.
  destruct (body_loop (concat (walk <$> before)) chunks) as [chunks'|]; simpl; [|done].
  rewrite (walk_eq container), Hsub, <- app_comm_cons, body_loop_cons.
  unfold body_part at 1. by rewrite Hatt.
Qed.

End body_tree.

(** ** Analysis and drafting *)

Lemma dict_lookup_set (key k : string) (v : json) (d : list (string * json)) :
  dict_lookup k (dict_set key v d) =
  if String.eqb key k then Some v else dict_lookup k d.
Proof.
  induction d as [|[k' v'] d IH]; simpl.
  - done.
  - destruct (String.eqb_spec k' key) as [->|Hne]; simpl.
    + by destruct (String.eqb_spec key k).
    + destruct (String.eqb_spec k' k) as [->|Hne'].
      * by rewrite (proj2 (String.eqb_neq key k)).
      * apply IH.
Qed.

Lemma dict_set_keys (key : string) (v : json) (d : list (string * json)) :
  (dict_set key v d).*1 = if bool_decide (key ∈ d.*1) then d.*1 else d.*1 ++ [key].
Proof.
  induction d as [|[k' v'] d IH]; [done|].
  rewrite fmap_cons. cbn [dict_set fst].
  destruct (String.eqb_spec k' key) as [->|Hne].
  - rewrite bool_decide_eq_true_2; [done | left].
  - rewrite fmap_cons, IH. cbn [fst].
    destruct (decide (key ∈ d.*1)) as [Hin|Hnot].
    + rewrite !bool_decide_eq_true_2; [done | by right | done].
    + rewrite !bool_decide_eq_false_2; [done | | done].
      intros [?|?]%elem_of_cons; congruence.
Qed.

Lemma json_is_str_false (s : string) (x : json) :
  json_is_str s x = false → x ≠ JStr s.
Proof. intros Hx ->. simpl in Hx. by rewrite String.eqb_refl in Hx. Qed.

Section service_facts.
Context `{Service}.

Lemma analyze_loop_acc (i : nat) (emails : list Row) (acc : list json) :
  analyze_loop i emails acc =
  leads ← analyze_loop i emails []; Ok (acc ++ leads).
Proof.
  revert i acc. induction emails as [|row emails IH]; intros i acc; simpl.
  - by rewrite app_nil_r.
  - destruct (analyze_row i row) as [[lead|]|]; simpl; [| |done].
    + rewrite (IH _ (acc ++ [lead])), (IH _ [lead]).
      destruct (analyze_loop (S i) emails []); simpl; [|done].
      by rewrite <- app_assoc.
    + apply IH.
Qed.

Lemma analyze_loop_cons (i : nat) (row : Row) (emails : list Row) :
  analyze_loop i (row :: emails) [] =
  answer ← analyze_row i row;
  leads ← analyze_loop (S i) emails [];
  Ok (match answer with Some lead => lead :: leads | None => leads end).
Proof.
  simpl. destruct (analyze_row i row) as [[lead|]|]; simpl; [| |done].
  - rewrite analyze_loop_acc. by destruct (analyze_loop (S i) emails []).
  - by destruct (analyze_loop (S i) emails []).
Qed.

Lemma analyze_row_lead (i : nat) (row : Row) (lead : json) :
  analyze_row i row = Ok (Some lead) →
  ∃ key details rest decision,
    lead = JDict ((key, JDict details) :: rest) ∧
    dict_lookup "decision" details = Some decision ∧
    decision ≠ JStr "0" ∧
    stdout_encodes key = true.
Proof.
  unfold analyze_row. destruct (stdout_encodes (sender_domain row)); [|done].
  destruct (analysis_text i row) as [text|e]; [|by destruct (stdout_encodes e)].
  destruct (analyze_answer text) as [answer|] eqn:Hanswer; [|done].
  intros [= ->]. revert Hanswer. unfold analyze_answer.
  destruct text as [text|]; [|done]. simpl.
  destruct (json_match text) as [|b|n|s|l|[|[key v] rest]];
    try (simpl; repeat case_match; done).
  simpl. rewrite String.eqb_refl. simpl.
  destruct v as [| | | | |details]; try done. simpl.
  destruct (dict_lookup "decision" details) as [decision|] eqn:Hdec; simpl; [|done].
  destruct (json_is_str "0" decision) eqn:Hzero; [done|].
  destruct (stdout_encodes key) eqn:Hkey; [|done].
  intros [= <-]. exists key, details, rest, decision.
  split_and!; [done..| |done]. by apply json_is_str_false.
Qed.

Lemma elem_of_analyze_loop (i : nat) (emails : list Row) (leads : list json)
    (lead : json) :
  analyze_loop i emails [] = Ok leads → lead ∈ leads →
  ∃ j row, emails !! j = Some row ∧ analyze_row (i + j) row = Ok (Some lead).
Proof.
  revert i leads. induction emails as [|row emails IH]; intros i leads.
  - intros [= <-]. by intros ?%elem_of_nil.
  - rewrite analyze_loop_cons.
    destruct (analyze_row i row) as [answer|] eqn:Hrow; [|done].
    rewrite bind_Ok.
    destruct (analyze_loop (S i) emails []) as [leads'|] eqn:Hrest; [|done].
    rewrite bind_Ok. intros [= <-] Hlead.
    assert (lead ∈ leads' →
            ∃ j row', (row :: emails) !! j = Some row' ∧
                      analyze_row (i + j) row' = Ok (Some lead)) as Hin.
    { intros (j & row' & Hj & Hrow')%(IH _ _ Hrest). exists (S j), row'.
      split; [done|]. by rewrite Nat.add_succ_r. }
    destruct answer as [lead'|]; [|by apply Hin].
    apply elem_of_cons in Hlead as [->|Hlead]; [|by apply Hin].
    exists 0, row. split; [done|]. by rewrite Nat.add_0_r.
Qed.

Lemma length_analyze_loop (i : nat) (emails : list Row) (leads : list json) :
  analyze_loop i emails [] = Ok leads → length leads ≤ length emails.
Proof.
  revert i leads. induction emails as [|row emails IH]; intros i leads.
  - by intros [= <-].
  - rewrite analyze_loop_cons.
    destruct (analyze_row i row) as [answer|]; [|done]. rewrite bind_Ok.
    destruct (analyze_loop (S i) emails []) as [leads'|] eqn:Hrest; [|done].
    rewrite bind_Ok. intros [= <-]. specialize (IH _ _ Hrest).
    destruct answer; simpl; lia.
Qed.

(** What the analysis returns can be taken apart by the drafting phase. *)
Lemma analyze_loop_shaped (i : nat) (emails : list Row) (leads : list json) :
  analyze_loop i emails [] = Ok leads → Forall lead_shape leads.
Proof.
  intros Hleads. apply Forall_forall.
  intros lead (j & row & _ & Hrow)%(elem_of_analyze_loop _ _ _ _ Hleads).
  apply analyze_row_lead in Hrow as (key & details & rest & _ & -> & _).
  by exists key, details, rest.
Qed.

(** When every line can be printed, the analysis returns. *)
Lemma analyze_loop_returns (i : nat) (emails : list Row) :
  (∀ t, stdout_encodes t = true) → ∃ leads, analyze_loop i emails [] = Ok leads.
Proof.
  intros Henc. revert i. induction emails as [|row emails IH]; intros i.
  - by exists [].
  - rewrite analyze_loop_cons. destruct (IH (S i)) as (leads & ->).
    assert (∃ answer, analyze_row i row = Ok answer) as (answer & ->).
    { unfold analyze_row. rewrite Henc.
      destruct (analysis_text i row) as [text|e]; [|rewrite Henc; eauto].
      destruct (analyze_answer text); eauto. }
    rewrite !bind_Ok. eauto.
Qed.

(** X17. Every lead kept by the analysis is the answer to one of the rows,
    and it is a dictionary whose first value is a dictionary with a
    ["decision"] entry different from the string ["0"], under a key that could
    be printed; there are no more leads than rows. *)
Theorem analysis_keeps_decided_leads (emails : list Row) (leads : list json) :
  analyze_and_research_emails emails = Ok leads →
  length leads ≤ length emails ∧
  ∀ lead, lead ∈ leads →
    (∃ i row, emails !! i = Some row ∧ analyze_row i row = Ok (Some lead)) ∧
    ∃ key details rest decision,
      lead = JDict ((key, JDict details) :: rest) ∧
      dict_lookup "decision" details = Some decision ∧
      decision ≠ JStr "0" ∧
      stdout_encodes key = true.
Proof.
  intros Hleads. split; [by eapply length_analyze_loop|].
  intros lead (i & row & Hi & Hrow)%(elem_of_analyze_loop _ _ _ _ Hleads).
  split; [eauto|]. by eapply analyze_row_lead.
Qed.

Lemma analyze_loop_app (i : nat) (emails1 emails2 : list Row) :
  analyze_loop i (emails1 ++ emails2) [] =
  leads1 ← analyze_loop i emails1 [];
  leads2 ← analyze_loop (i + length emails1) emails2 [];
  Ok (leads1 ++ leads2).
Proof.
  revert i. induction emails1 as [|row emails1 IH]; intros i.
  - simpl. rewrite Nat.add_0_r. by destruct (analyze_loop i emails2 []).
  - rewrite <- app_comm_cons, !analyze_loop_cons, IH. simpl.
    rewrite Nat.add_succ_r.
    destruct (analyze_row i row) as [answer|]; simpl; [|done].
    destruct (analyze_loop (S i) emails1 []) as [leads1|]; simpl; [|done].
    destruct (analyze_loop _ emails2 []) as [leads2|]; simpl; [|done].
    by destruct answer.
Qed.

(** X18. Rows are analysed one by one: the leads of two lists of rows put
    end to end are the leads of the first followed by those of the second
    (its calls numbered after those of the first), so a row whose analysis
    fails takes nothing away from the others; the analysis of the whole
    raises as soon as that of one of the two lists does. *)
Theorem analysis_app (emails1 emails2 : list Row) :
  analyze_and_research_emails (emails1 ++ emails2) =
  leads1 ← analyze_and_research_emails emails1;
  leads2 ← analyze_loop (length emails1) emails2 [];
  Ok (leads1 ++ leads2).
Proof. apply (analyze_loop_app 0). Qed.

End service_facts.

Section drafting_facts.
Context `{Service}.

Lemma draft_lead_shaped (i : nat) (key : string)
    (details rest : list (string * json)) :
  draft_lead i (JDict ((key, JDict details) :: rest)) =
  if stdout_encodes
       (format_value (from_option id (JStr "Unknown") (dict_lookup "name" details)))
  then
    match draft_text i (JDict details) with
    | inl text =>
        Ok (JDict (dict_set "investment_email_draft"
                            (from_option JStr JNull text) details))
    | inr e =>
        if stdout_encodes e
        then Ok (JDict (dict_set "investment_email_draft"
                                 (JStr ("Error generating draft: " +:+ e)) details))
        else Raise
    end
  else Raise.
Proof. unfold draft_lead. simpl. by rewrite String.eqb_refl. Qed.

Lemma draft_lead_raise (i : nat) (key : string)
    (details rest : list (string * json)) :
  draft_lead i (JDict ((key, JDict details) :: rest)) = Raise ↔
  draft_print_fails i details.
Proof.
  rewrite draft_lead_shaped. unfold draft_print_fails.
  destruct (stdout_encodes
              (format_value (from_option id (JStr "Unknown")
                               (dict_lookup "name" details)))) eqn:Hname;
    [|split; [by left | done]].
  destruct (draft_text i (JDict details)) as [text|e] eqn:Hdraft.
  - split; [done|]. by intros [?|(e & ? & _)].
  - destruct (stdout_encodes e) eqn:He.
    + split; [done|]. intros [?|(e' & [= <-] & ?)]; congruence.
    + split; [|done]. intros _. right. eauto.
Qed.

Lemma draft_lead_ok (i : nat) (lead d : json) :
  draft_lead i lead = Ok d → lead_shape lead.
Proof.
  unfold draft_lead, lead_shape.
  destruct lead as [| | | | |[|[key v] rest]]; try done.
  simpl. rewrite String.eqb_refl. simpl.
  destruct v as [| | | | |details]; try done. eauto.
Qed.

Lemma draft_lead_fields (i : nat) (key : string)
    (details rest : list (string * json)) (d : json) :
  draft_lead i (JDict ((key, JDict details) :: rest)) = Ok d →
  ∃ v, d = JDict (dict_set "investment_email_draft" v details) ∧
       match draft_text i (JDict details) with
       | inl (Some text) => v = JStr text
       | inl None => v = JNull
       | inr e => v = JStr ("Error generating draft: " +:+ e)
       end.
Proof.
  rewrite draft_lead_shaped.
  destruct (stdout_encodes (format_value _)); [|done].
  destruct (draft_text i (JDict details)) as [[text|]|e].
  - intros [= <-]. eauto.
  - intros [= <-]. eauto.
  - destruct (stdout_encodes e); [|done]. intros [= <-]. eauto.
Qed.

Lemma draft_loop_acc (i : nat) (leads acc : list json) :
  draft_loop i leads acc = drafted ← draft_loop i leads []; Ok (acc ++ drafted).
Proof.
  revert i acc. induction leads as [|lead leads IH]; intros i acc; simpl.
  - by rewrite app_nil_r.
  - destruct (draft_lead i lead) as [d|]; simpl; [|done].
    rewrite (IH _ (acc ++ [d])), (IH _ [d]).
    destruct (draft_loop (S i) leads []); simpl; [|done].
    by rewrite <- app_assoc.
Qed.

Lemma draft_loop_cons (i : nat) (lead : json) (leads : list json) :
  draft_loop i (lead :: leads) [] =
  d ← draft_lead i lead; drafted ← draft_loop (S i) leads []; Ok (d :: drafted).
Proof.
  simpl. destruct (draft_lead i lead) as [d|]; simpl; [|done].
  by rewrite draft_loop_acc.
Qed.

(** A lead on which drafting raises. *)
Lemma draft_loop_raise (i : nat) (leads : list json) :
  draft_loop i leads [] = Raise ↔
  ∃ j lead, leads !! j = Some lead ∧
    (¬ lead_shape lead ∨
     ∃ key details rest, lead = JDict ((key, JDict details) :: rest) ∧
                         draft_print_fails (i + j) details).
Proof.
  revert i. induction leads as [|lead leads IH]; intros i.
  - split; [done | by intros (j & lead & ? & _)].
  - rewrite draft_loop_cons.
    assert ((∃ j lead', leads !! j = Some lead' ∧
               (¬ lead_shape lead' ∨
                ∃ key details rest, lead' = JDict ((key, JDict details) :: rest) ∧
                                    draft_print_fails (S i + j) details)) →
            ∃ j lead', (lead :: leads) !! j = Some lead' ∧
               (¬ lead_shape lead' ∨
                ∃ key details rest, lead' = JDict ((key, JDict details) :: rest) ∧
                                    draft_print_fails (i + j) details)) as Hlater.
    { intros (j & lead' & Hj & Hbad). exists (S j), lead'.
      split; [done|]. by rewrite Nat.add_succ_r. }
    destruct (draft_lead i lead) as [d|] eqn:Hlead; simpl.
    + destruct (draft_loop (S i) leads []) as [drafted|] eqn:Hrest; simpl.
      * split; [done|]. intros ([|j] & lead' & Hj & Hbad).
        -- injection Hj as <-. destruct Hbad as [Hshape | Hprint].
           ++ destruct Hshape. by eapply draft_lead_ok.
           ++ destruct Hprint as (key & details & rest & -> & Hfails).
              rewrite Nat.add_0_r in Hfails.
              apply (draft_lead_raise i key details rest) in Hfails. congruence.
        -- assert (@Ok (list json) drafted = Raise); [|done].
           rewrite <- Hrest. apply IH. exists j, lead'. split; [done|].
           by rewrite Nat.add_succ_r in Hbad.
      * split; [|done]. intros _. by apply Hlater, IH.
    + split; [|done]. intros _. exists 0, lead. split; [done|].
      rewrite Nat.add_0_r.
      destruct lead as [| | | | |[|[key [| | | | |details]] rest]];
        try (left; by intros (? & ? & ? & ?)).
      right. exists key, details, rest. split; [done|].
      by apply (draft_lead_raise i key details rest).
Qed.

Lemma draft_loop_drafted (i : nat) (leads drafted : list json) :
  draft_loop i leads [] = Ok drafted →
  length drafted = length leads ∧
  Forall (λ d, ∃ fields v, d = JDict fields ∧
                dict_lookup "investment_email_draft" fields = Some v) drafted.
Proof.
  revert i drafted. induction leads as [|lead leads IH]; intros i drafted.
  - intros [= <-]. split; [done | constructor].
  - rewrite draft_loop_cons.
    destruct (draft_lead i lead) as [d|] eqn:Hlead; [|done]. rewrite bind_Ok.
    destruct (draft_loop (S i) leads []) as [drafted'|] eqn:Hrest; [|done].
    rewrite bind_Ok. intros [= <-].
    destruct (IH _ _ Hrest) as [Hlen Hall]. split; [simpl; by rewrite Hlen|].
    constructor; [|done].
    pose proof (draft_lead_ok _ _ _ Hlead) as (key & details & rest & ->).
    apply draft_lead_fields in Hlead as (v & -> & _).
    eexists _, v. split; [done|]. by rewrite dict_lookup_set, String.eqb_refl.
Qed.

(** X19. Drafting raises exactly when one of the leads is not a dictionary
    whose first value is a dictionary (an empty dictionary, a list, a lead
    whose first value is a string), or when a line printed for a lead cannot
    be encoded: its name, shown before the [try], or the message of the
    exception of the service, shown by the handler. A failing call to the
    service does not by itself make it raise. *)
Theorem drafting_raises_iff (leads : list json) :
  draft_outreach_emails leads = Raise ↔
  ∃ i lead, leads !! i = Some lead ∧
    (¬ lead_shape lead ∨
     ∃ key details rest, lead = JDict ((key, JDict details) :: rest) ∧
                         draft_print_fails i details).
Proof. apply (draft_loop_raise 0). Qed.

(** X20. What the analysis returns can always be taken apart by the drafting
    phase: on it, drafting raises only when a printed line cannot be encoded,
    and otherwise gives one drafted lead per lead, each a dictionary with an
    ["investment_email_draft"] entry. *)
Theorem drafting_after_analysis (emails : list Row) (leads : list json) :
  analyze_and_research_emails emails = Ok leads →
  Forall lead_shape leads ∧
  (draft_outreach_emails leads = Raise ↔
   ∃ i key details rest,
     leads !! i = Some (JDict ((key, JDict details) :: rest)) ∧
     draft_print_fails i details) ∧
  (∀ drafted, draft_outreach_emails leads = Ok drafted →
     length drafted = length leads ∧
     ∀ d, d ∈ drafted →
       ∃ fields v, d = JDict fields ∧
                   dict_lookup "investment_email_draft" fields = Some v).
Proof.
  intros Hleads.
  pose proof (analyze_loop_shaped _ _ _ Hleads) as Hshape.
  split_and!; [done| |].
  - unfold draft_outreach_emails. rewrite draft_loop_raise. split.
    + intros (i & lead & Hi & [Hbad | (key & details & rest & -> & Hfails)]).
      * destruct Hbad. rewrite Forall_forall in Hshape.
        by eapply Hshape, list_elem_of_lookup_2.
      * by exists i, key, details, rest.
    + intros (i & key & details & rest & Hi & Hfails).
      exists i, (JDict ((key, JDict details) :: rest)). split; [done|].
      right. by exists key, details, rest.
  - intros drafted (Hlen & Hall)%draft_loop_drafted.
    split; [done|]. by apply Forall_forall.
Qed.

(** X21. On a lead that is a dictionary whose first value is a dictionary,
    one step of drafting raises exactly when one of its printed lines cannot
    be encoded. Otherwise the drafted lead is that first value with the draft
    stored under ["investment_email_draft"]: the text of the service (nothing
    when it returns no text), or ["Error generating draft: "] followed by the
    message of the exception; every other field keeps its value. *)
Theorem drafting_keeps_fields (i : nat) (key : string)
    (details rest : list (string * json)) :
  (draft_lead i (JDict ((key, JDict details) :: rest)) = Raise ↔
   draft_print_fails i details) ∧
  ∀ d, draft_lead i (JDict ((key, JDict details) :: rest)) = Ok d →
    ∃ fields v,
      d = JDict fields ∧
      dict_lookup "investment_email_draft" fields = Some v ∧
      (∀ k, k ≠ "investment_email_draft" →
            dict_lookup k fields = dict_lookup k details) ∧
      match draft_text i (JDict details) with
      | inl (Some text) => v = JStr text
      | inl None => v = JNull
      | inr e => v = JStr ("Error generating draft: " +:+ e)
      end.
Proof.
  split; [apply draft_lead_raise|].
  intros d (v & -> & Hv)%draft_lead_fields.
  eexists _, v. split_and!; [done | | | done].
  - by rewrite dict_lookup_set, String.eqb_refl.
  - intros k Hk. rewrite dict_lookup_set.
    by rewrite (proj2 (String.eqb_neq _ _)) by congruence.
Qed.

End drafting_facts.

(** ** The table *)

Lemma collect_keys_spec (data : list json) (acc ks : list string) :
  collect_keys data acc = Ok ks →
  Forall is_dict data ∧
  ∀ k, k ∈ ks ↔ k ∈ acc ∨ ∃ d, JDict d ∈ data ∧ k ∈ d.*1.
Proof.
  revert acc. induction data as [|row data IH]; intros acc.
  - intros [= <-]. split; [constructor|]. intros k. split; [by left|].
    by intros [?|(d & ?%elem_of_nil & _)].
  - simpl. destruct row as [| | | | |d]; try done. simpl.
    intros (Hall & Hks)%IH. split; [constructor; [by exists d | done]|].
    intros k. rewrite Hks, elem_of_app. split.
    + intros [[?|?]|(d' & Hin & Hk)]; [by left | |].
      * right. exists d. split; [left | done].
      * right. exists d'. split; [by right | done].
    + intros [?|(d' & [Heq|Hin]%elem_of_cons & Hk)]; [by left; left | |].
      * injection Heq as ->. by left; right.
      * right. eauto.
Qed.

Lemma collect_keys_dicts (data : list json) (acc : list string) :
  Forall is_dict data → ∃ ks, collect_keys data acc = Ok ks.
Proof.
  revert acc. induction data as [|row data IH]; intros acc Hall; [by eexists|].
  apply Forall_cons in Hall as [[d ->] Hall]. simpl. apply IH, Hall.
Qed.

Lemma dict_to_list_known (fieldnames : list string) (d : list (string * json)) :
  (∀ k, k ∈ d.*1 → k ∈ fieldnames) →
  dict_to_list fieldnames (JDict d) =
  Ok ((λ key, from_option id (JStr "") (dict_lookup key d)) <$> fieldnames).
Proof.
  intros Hknown. unfold dict_to_list. simpl.
  assert (forallb (λ k, bool_decide (k ∈ fieldnames)) d.*1 = true) as ->; [|done].
  apply forallb_forall. intros k Hk%list_elem_of_In.
  by apply bool_decide_eq_true_2, Hknown.
Qed.

Lemma all_dicts_or_not (data : list json) :
  Forall is_dict data ∨ ∃ row, row ∈ data ∧ ¬ is_dict row.
Proof.
  induction data as [|row data [IH|(bad & Hin & Hbad)]].
  - left. constructor.
  - destruct row as [| | | | |d];
      try (right; eexists; split; [left|]; by intros [d' ?]).
    left. constructor; [by exists d | done].
  - right. exists bad. split; [by right | done].
Qed.

Lemma forallb_false {A : Type} (f : A → bool) (l : list A) :
  forallb f l = false ↔ ∃ x, x ∈ l ∧ f x = false.
Proof.
  induction l as [|x l IH]; simpl.
  - split; [done | by intros (x & ?%elem_of_nil & _)].
  - rewrite andb_false_iff, IH. split.
    + intros [Hx | (y & Hy & Hfy)]; [exists x | exists y];
        (split; [|done]); [left | by right].
    + intros (y & [->|Hy]%elem_of_cons & Hfy); [by left | right; eauto].
Qed.

Lemma dict_lookup_keys (k : string) (v : json) (d : list (string * json)) :
  dict_lookup k d = Some v → k ∈ d.*1.
Proof.
  induction d as [|[k' v'] d IH]; [done|]. simpl.
  destruct (String.eqb_spec k' k) as [->|Hne]; [by left|].
  intros Hk. right. by apply IH.
Qed.

Section table_facts.
Context `{Service}.

Lemma writerow_raise (fields : list string) :
  writerow fields = Raise ↔ ∃ t, t ∈ fields ∧ file_encodes t = false.
Proof.
  unfold writerow. rewrite <- forallb_false.
  by destruct (forallb file_encodes fields).
Qed.

Lemma writerow_Ok (fields : list string) (u : ()) :
  writerow fields = Ok u → ∀ t, t ∈ fields → file_encodes t = true.
Proof.
  unfold writerow. destruct (forallb file_encodes fields) eqn:Hall; [|done].
  intros _ t Ht. rewrite forallb_forall in Hall. by apply Hall, list_elem_of_In.
Qed.

(** The lines that [writerows] has written. *)
Lemma writerows_lines (fieldnames : list string) (data : list json)
    (lines : list (list json)) :
  writerows fieldnames data = Ok lines →
  length lines = length data ∧
  Forall (λ line, length line = length fieldnames) lines ∧
  ∀ i d line, data !! i = Some (JDict d) → lines !! i = Some line →
    line = (λ key, from_option id (JStr "") (dict_lookup key d)) <$> fieldnames.
Proof.
  revert lines. induction data as [|row data IH]; intros lines.
  - intros [= <-]. split_and!; [done | constructor | by intros []].
  - cbn [writerows].
    destruct (dict_to_list fieldnames row) as [line|] eqn:Hline; [|done].
    rewrite bind_Ok.
    destruct (writerow (csv_field <$> line)) as [u|]; [|done]. rewrite bind_Ok.
    destruct (writerows fieldnames data) as [lines'|]; [|done]. rewrite bind_Ok.
    intros [= <-]. destruct (IH lines' eq_refl) as (Hlen & Hrect & Hcells).
    assert (∀ d, row = JDict d →
              line = (λ key, from_option id (JStr "") (dict_lookup key d))
                     <$> fieldnames) as Hrow.
    { intros d ->. revert Hline. unfold dict_to_list. simpl.
      case_match; [by intros [= <-] | done]. }
    split_and!.
    + simpl. by rewrite Hlen.
    + constructor; [|done]. revert Hline. unfold dict_to_list.
      destruct row as [| | | | |d]; try done. simpl.
      case_match; [|done]. intros [= <-]. by rewrite length_fmap.
    + intros [|i] d line'; simpl.
      * intros [= ->] [= <-]. by apply Hrow.
      * apply Hcells.
Qed.

(** On dictionaries whose keys are field names, a row can fail to be written
    only because one of its cells cannot be encoded. *)
Lemma writerows_raise (fieldnames : list string) (data : list json) :
  Forall is_dict data →
  (∀ d k, JDict d ∈ data → k ∈ d.*1 → k ∈ fieldnames) →
  writerows fieldnames data = Raise ↔
  ∃ d k, JDict d ∈ data ∧ k ∈ fieldnames ∧
    file_encodes (csv_field (from_option id (JStr "") (dict_lookup k d))) = false.
Proof.
  induction data as [|row data IH]; intros Hall Hknown.
  - split; [done | by intros (d & k & ?%elem_of_nil & _)].
  - apply Forall_cons in Hall as [[d ->] Hall].
    specialize (IH Hall (λ d' k Hd', Hknown d' k (list_elem_of_further _ _ _ Hd'))).
    cbn [writerows].
    rewrite dict_to_list_known by (intros k; apply Hknown; left).
    rewrite bind_Ok.
    destruct (writerow _) as [u|] eqn:Hrow.
    + rewrite bind_Ok.
      pose proof (writerow_Ok _ _ Hrow) as Hcells.
      destruct (writerows fieldnames data) as [lines|]; simpl.
      * split; [done|]. intros (d' & k & [Heq|Hin]%elem_of_cons & Hk & Henc).
        -- injection Heq as ->.
           rewrite Hcells in Henc; [done|].
           rewrite <- list_fmap_compose. apply list_elem_of_fmap.
           by exists k.
        -- assert (@Ok (list (list json)) lines = Raise); [|done].
           apply IH. eauto.
      * split; [|done]. intros _.
        destruct (proj1 IH eq_refl) as (d' & k & Hin & Hk).
        exists d', k. split; [by right | done].
    + split; [|done]. intros _.
      apply writerow_raise in Hrow as (t & Ht & Henc).
      rewrite <- list_fmap_compose in Ht.
      apply list_elem_of_fmap in Ht as (k & -> & Hk).
      exists d, k. split; [left | done].
Qed.

Lemma write_to_csv_cons (row : json) (data : list json) :
  write_to_csv (row :: data) =
  fieldnames ← collect_keys (row :: data) [];
  _ ← writerow (sorted_set fieldnames);
  lines ← writerows (sorted_set fieldnames) (row :: data);
  Ok (Some (sorted_set fieldnames, lines)).
Proof. reflexivity. Qed.

(** The table that [write_to_csv] has written. *)
Lemma write_to_csv_table (data : list json) (header : list string)
    (lines : list (list json)) :
  write_to_csv data = Ok (Some (header, lines)) →
  StronglySorted str_lt header ∧
  (∀ k, k ∈ header ↔ ∃ d, JDict d ∈ data ∧ k ∈ d.*1) ∧
  length lines = length data ∧
  Forall (λ line, length line = length header) lines ∧
  ∀ i d line, data !! i = Some (JDict d) → lines !! i = Some line →
    line = (λ key, from_option id (JStr "") (dict_lookup key d)) <$> header.
Proof.
  destruct data as [|row data]; [done|]. rewrite write_to_csv_cons.
  destruct (collect_keys (row :: data) []) as [ks|] eqn:Hks; [|done].
  rewrite bind_Ok.
  destruct (writerow (sorted_set ks)) as [u|]; [|done]. rewrite bind_Ok.
  destruct (writerows (sorted_set ks) (row :: data)) as [lines'|] eqn:Hlines;
    [|done].
  rewrite bind_Ok. intros [= <- <-].
  apply collect_keys_spec in Hks as [_ Hks].
  apply writerows_lines in Hlines as (Hlen & Hrect & Hcells).
  split_and!; [apply sorted_set_sorted | | done..].
  intros k. rewrite elem_of_sorted_set, Hks. split; [|by right].
  by intros [?%elem_of_nil|?].
Qed.

Lemma write_to_csv_raise (data : list json) :
  write_to_csv data = Raise ↔
  (∃ row, row ∈ data ∧ ¬ is_dict row) ∨
  (∃ d k, JDict d ∈ data ∧ k ∈ d.*1 ∧ file_encodes k = false) ∨
  (∃ d d' k, JDict d ∈ data ∧ JDict d' ∈ data ∧ k ∈ d'.*1 ∧
     file_encodes (csv_field (from_option id (JStr "") (dict_lookup k d))) = false).
Proof.
  destruct data as [|row data].
  { split; [done|].
    intros [(r & ?%elem_of_nil & _) | [(d & k & ?%elem_of_nil & _)
                                     | (d & d' & k & ?%elem_of_nil & _)]]; done. }
  rewrite write_to_csv_cons.
  destruct (all_dicts_or_not (row :: data)) as [Hdicts | (bad & Hin & Hbad)].
  - destruct (collect_keys_dicts (row :: data) [] Hdicts) as (ks & Hks).
    rewrite Hks, bind_Ok. apply collect_keys_spec in Hks as [_ Hks].
    assert (∀ k, k ∈ sorted_set ks ↔ ∃ d, JDict d ∈ row :: data ∧ k ∈ d.*1)
      as Hheader.
    { intros k. rewrite elem_of_sorted_set, Hks. split; [|by right].
      by intros [?%elem_of_nil|?]. }
    pose proof (writerows_raise (sorted_set ks) (row :: data) Hdicts) as Hrows.
    destruct (writerow (sorted_set ks)) as [u|] eqn:Hhead.
    + rewrite bind_Ok. pose proof (writerow_Ok _ _ Hhead) as Hnames.
      destruct (writerows (sorted_set ks) (row :: data)) as [lines|]; simpl.
      * split; [done|].
        intros [(r & Hr & Hnot) | [(d & k & Hd & Hk & Henc)
                                  | (d & d' & k & Hd & Hd' & Hk & Henc)]].
        -- destruct Hnot. rewrite Forall_forall in Hdicts. by apply Hdicts.
        -- rewrite Hnames in Henc; [done|]. apply Hheader. eauto.
        -- assert (@Ok (list (list json)) lines = Raise); [|done].
           apply Hrows; [intros; apply Hheader; eauto|].
           exists d, k. split_and!; [done| |done]. apply Hheader. eauto.
      * split; [|done]. intros _.
        destruct (proj1 (Hrows (λ d k Hd Hk, proj2 (Hheader k)
                                  (ex_intro _ d (conj Hd Hk)))) eq_refl)
          as (d & k & Hd & Hk & Henc).
        apply Hheader in Hk as (d' & Hd' & Hk). right. right.
        by exists d, d', k.
    + split; [|done]. intros _.
      apply writerow_raise in Hhead as (k & Hk & Henc).
      apply Hheader in Hk as (d & Hd & Hk). right. left. by exists d, k.
  - destruct (collect_keys (row :: data) []) as [ks|] eqn:Hks.
    + apply collect_keys_spec in Hks as [Hdicts _].
      rewrite Forall_forall in Hdicts. destruct Hbad. by apply Hdicts.
    + split; [|done]. intros _. left. by exists bad.
Qed.

(** X22. The table has one line per row and one cell per field name in
    every line; the header lists, once each and in increasing order, the keys
    that occur in some row; a cell holds the value of its field in its row, or
    the empty string when the row lacks the field. *)
Theorem csv_table_shape (data : list json) (header : list string)
    (lines : list (list json)) :
  write_to_csv data = Ok (Some (header, lines)) →
  StronglySorted str_lt header ∧
  (∀ k, k ∈ header ↔ ∃ d, JDict d ∈ data ∧ k ∈ d.*1) ∧
  length lines = length data ∧
  Forall (λ line, length line = length header) lines ∧
  ∀ i d line, data !! i = Some (JDict d) → lines !! i = Some line →
    line = (λ key, from_option id (JStr "") (dict_lookup key d)) <$> header.
Proof. apply write_to_csv_table. Qed.

(** X23. Writing the table raises exactly when one of the rows is not a
    dictionary, or when a field name or a cell cannot be encoded by the file;
    the check of the writer for a field outside the header never fails, the
    header being built from the rows. *)
Theorem write_to_csv_raises_iff (data : list json) :
  write_to_csv data = Raise ↔
  (∃ row, row ∈ data ∧ ¬ is_dict row) ∨
  (∃ d k, JDict d ∈ data ∧ k ∈ d.*1 ∧ file_encodes k = false) ∨
  (∃ d d' k, JDict d ∈ data ∧ JDict d' ∈ data ∧ k ∈ d'.*1 ∧
     file_encodes (csv_field (from_option id (JStr "") (dict_lookup k d))) = false).
Proof. apply write_to_csv_raise. Qed.

End table_facts.

(** ** From the mailbox to the table *)

Section whole_run.
Context `{Library} `{Service}.

Lemma parse_mbox_file_length (cfg : Config) (mbox : list Message) (rows : list Row) :
  parse_mbox_file cfg mbox = Ok rows → length rows ≤ length mbox.
Proof.
  revert rows. induction mbox as [|msg mbox IH]; intros rows.
  - by intros [= <-].
  - rewrite parse_mbox_file_cons.
    destruct (parse_message cfg msg) as [r|]; simpl; [|done].
    destruct (parse_mbox_file cfg mbox) as [rows'|]; simpl; [|done].
    intros [= <-]. specialize (IH rows' eq_refl). destruct r; simpl; lia.
Qed.

(** X24. When the terminal and the file can encode every text, the only
    exception that leaves the run is the one of ingestion: the shape of the
    answers of the services never makes analysis, drafting or the table
    raise. Ingestion raising always ends the run. When a table is written it
    has an ["investment_email_draft"] column and at least one line, and no
    more lines than the archive has messages. *)
Theorem main_to_csv_outcome (cfg : Config) (mbox : list Message) :
  ((∀ t, stdout_encodes t = true) → (∀ t, file_encodes t = true) →
   (main_to_csv cfg mbox = Raise ↔ parse_mbox_file cfg mbox = Raise)) ∧
  (parse_mbox_file cfg mbox = Raise → main_to_csv cfg mbox = Raise) ∧
  ∀ header lines, main_to_csv cfg mbox = Ok (Some (header, lines)) →
    "investment_email_draft" ∈ header ∧
    0 < length lines ∧ length lines ≤ length mbox.
Proof.
  unfold main_to_csv, main.
  destruct (parse_mbox_file cfg mbox) as [filtered|] eqn:Hparse; [|done].
  rewrite bind_Ok.
  destruct filtered as [|row0 filtered]; [done|].
  rewrite bind_Ok.
  set (latest := latest_emails (row0 :: filtered)).
  assert (length latest ≤ length mbox) as Hlatest.
  { etrans; [apply sublist_length, latest_loop_sublist|].
    rewrite sort_by_date_perm. by apply parse_mbox_file_length in Hparse. }
  split_and!; [|done|].
  - intros Hout Hfile. split; [|done].
    destruct (analyze_loop_returns 0 latest Hout) as (leads & Hleads).
    unfold analyze_and_research_emails. rewrite Hleads, bind_Ok.
    destruct leads as [|lead leads]; [done|].
    destruct (draft_outreach_emails (lead :: leads)) as [drafted|] eqn:Hdraft.
    + rewrite bind_Ok. intros Hraise.
      apply write_to_csv_raise in Hraise
        as [(r & Hr & Hnot) | [(d & k & _ & _ & Henc)
                              | (d & d' & k & _ & _ & _ & Henc)]];
        [|by rewrite Hfile in Henc..].
      apply draft_loop_drafted in Hdraft as [_ Hall].
      rewrite Forall_forall in Hall.
      destruct (Hall r Hr) as (fields & _ & -> & _). destruct Hnot. by exists fields.
    + apply draft_loop_raise in Hdraft
        as (j & l & Hj & [Hbad | (key & details & rest & -> & Hfails)]).
      * destruct Hbad. pose proof (analyze_loop_shaped _ _ _ Hleads) as Hshape.
        rewrite Forall_forall in Hshape.
        by eapply Hshape, list_elem_of_lookup_2.
      * destruct Hfails as [Hname | (e & _ & He)];
          [by rewrite Hout in Hname | by rewrite Hout in He].
  - intros header lines.
    destruct (analyze_and_research_emails latest) as [leads|] eqn:Hleads; [|done].
    rewrite bind_Ok. destruct leads as [|lead leads]; [done|].
    destruct (draft_outreach_emails (lead :: leads)) as [drafted|] eqn:Hdraft;
      [|done].
    rewrite bind_Ok. intros (_ & Hheader & Hlines & _)%write_to_csv_table.
    apply draft_loop_drafted in Hdraft as [Hlen Hall].
    apply length_analyze_loop in Hleads.
    destruct drafted as [|d drafted]; [done|].
    split_and!.
    + apply Hheader. apply Forall_cons in Hall as [(fields & v & -> & Hv) _].
      exists fields. split; [left|]. by eapply dict_lookup_keys.
    + rewrite Hlines. simpl. lia.
    + rewrite Hlines, Hlen. simpl in *. lia.
Qed.

End whole_run.

(** ** The fenced block of an answer *)

Lemma append_assoc (a b c : string) : (a +:+ b) +:+ c = a +:+ b +:+ c.
Proof.
  induction a as [|x a IH]; [done|]. by rewrite !append_cons, IH.
Qed.

Lemma length_append (a b : string) :
  String.length (a +:+ b) = String.length a + String.length b.
Proof.
  induction a as [|x a IH]; [done|]. rewrite append_cons. simpl. by rewrite IH.
Qed.

Lemma append_split (a b c d : string) :
  a +:+ b = c +:+ d → String.length a ≤ String.length c →
  ∃ x, c = a +:+ x ∧ b = x +:+ d.
Proof.
  revert c. induction a as [|y a IH]; intros c Heq Hlen.
  - exists c. by rewrite !append_nil in *.
  - destruct c as [|z c]; [simpl in Hlen; lia|].
    rewrite !append_cons in Heq. injection Heq as -> Heq.
    destruct (IH c Heq) as (x & -> & ->); [simpl in Hlen; lia|].
    exists x. by rewrite append_cons.
Qed.

Lemma drop_prefix_spec (pat s rest : string) :
  drop_prefix pat s = Some rest ↔ s = pat +:+ rest.
Proof.
  revert s. induction pat as [|c pat IH]; intros s.
  - simpl. rewrite append_nil. destruct s; naive_solver.
  - destruct s as [|d s]; simpl; [by rewrite append_cons|].
    rewrite append_cons. destruct (Ascii.eqb_spec c d) as [->|Hne].
    + rewrite IH. naive_solver.
    + naive_solver.
Qed.

Lemma drop_prefix_None (pat s : string) :
  drop_prefix pat s = None ↔ String.prefix pat s = false.
Proof.
  destruct (drop_prefix pat s) as [rest|] eqn:Hdrop.
  - apply drop_prefix_spec in Hdrop.
    assert (String.prefix pat s = true) as -> by (apply prefix_spec; eauto).
    done.
  - split; [intros _|done].
    destruct (String.prefix pat s) eqn:Hpre; [|done].
    apply prefix_spec in Hpre as [suf Hs].
    apply drop_prefix_spec in Hs. congruence.
Qed.

Lemma after_first_spec (pat s rest : string) :
  after_first pat s = Some rest →
  ∃ pre, s = pre +:+ pat +:+ rest ∧ first_at pat pre s.
Proof.
  revert rest. induction s as [|c s IH]; intros rest.
  - simpl. destruct (drop_prefix pat "") as [r|] eqn:Hdrop; [|done].
    intros [= <-]. apply drop_prefix_spec in Hdrop.
    exists "". split; [done|]. intros a b _. simpl. lia.
  - simpl. destruct (drop_prefix pat (String c s)) as [r|] eqn:Hdrop.
    + intros [= <-]. apply drop_prefix_spec in Hdrop.
      exists "". split; [done|]. intros a b _. simpl. lia.
    + intros (pre & -> & Hfirst)%IH. exists (String c pre).
      split; [by rewrite append_cons|].
      intros a b Hab. destruct a as [|c' a].
      * rewrite append_nil in Hab. apply drop_prefix_spec in Hab. congruence.
      * rewrite append_cons in Hab. injection Hab as <- Hab.
        simpl. apply le_n_S. by apply (Hfirst a b).
Qed.

Lemma after_first_occurs (pat s : string) :
  occurs_in pat s → ∃ rest, after_first pat s = Some rest.
Proof.
  intros (pre & suf & ->). induction pre as [|c pre IH].
  - rewrite append_nil. destruct (pat +:+ suf) as [|c s] eqn:Hs; simpl.
    + rewrite (proj2 (drop_prefix_spec pat "" suf)) by done. eauto.
    + rewrite (proj2 (drop_prefix_spec pat (String c s) suf)) by done. eauto.
  - rewrite append_cons. simpl.
    destruct (drop_prefix pat _); [eauto | apply IH].
Qed.

Lemma before_first_eq (pat s : string) :
  before_first pat s =
  if String.prefix pat s then Some ""
  else match s with
       | EmptyString => None
       | String c s' => String c <$> before_first pat s'
       end.
Proof. by destruct s. Qed.

Lemma before_first_spec (pat s pre : string) :
  before_first pat s = Some pre →
  ∃ post, s = pre +:+ pat +:+ post ∧ first_at pat pre s.
Proof.
  revert pre. induction s as [|c s IH]; intros pre; rewrite before_first_eq.
  - destruct (String.prefix pat "") eqn:Hpre; [|done].
    intros [= <-]. apply prefix_spec in Hpre as [post Hs].
    exists post. split; [done|]. intros a b _. simpl. lia.
  - destruct (String.prefix pat (String c s)) eqn:Hpre.
    + intros [= <-]. apply prefix_spec in Hpre as [post Hs].
      exists post. split; [done|]. intros a b _. simpl. lia.
    + destruct (before_first pat s) as [pre'|] eqn:Hrec; [|done].
      intros [= <-]. destruct (IH pre' eq_refl) as (post & -> & Hfirst).
      exists post. split; [by rewrite append_cons|].
      intros a b Hab. destruct a as [|c' a].
      * rewrite append_nil in Hab.
        assert (String.prefix pat (String c (pre' +:+ pat +:+ post)) = true)
          by (apply prefix_spec; eauto).
        congruence.
      * rewrite append_cons in Hab. injection Hab as <- Hab.
        simpl. apply le_n_S. by apply (Hfirst a b).
Qed.

Lemma before_first_occurs (pat s : string) :
  occurs_in pat s → ∃ pre, before_first pat s = Some pre.
Proof.
  intros (pre & suf & ->). induction pre as [|c pre IH].
  - rewrite append_nil, before_first_eq.
    assert (String.prefix pat (pat +:+ suf) = true) as ->
      by (apply prefix_spec; eauto).
    eauto.
  - rewrite append_cons, before_first_eq. destruct IH as (pre' & ->).
    destruct (String.prefix pat _); simpl; eauto.
Qed.

(** X25. The search finds a block exactly when the text holds an opening
    fence with a closing fence somewhere after it. The group it returns is the
    text between the first opening fence and the first closing fence after it,
    with its braces. *)
Theorem json_group_spec (text : string) :
  (json_group text = None ↔
   ¬ ∃ pre inner post,
       text = pre +:+ fence_open +:+ inner +:+ fence_close +:+ post) ∧
  ∀ group, json_group text = Some group →
    ∃ pre inner post,
      text = pre +:+ fence_open +:+ inner +:+ fence_close +:+ post ∧
      group = "{" +:+ inner +:+ "}" ∧
      first_at fence_open pre text ∧
      first_at fence_close inner (inner +:+ fence_close +:+ post).
Proof.
  assert (∀ group, json_group text = Some group →
    ∃ pre inner post,
      text = pre +:+ fence_open +:+ inner +:+ fence_close +:+ post ∧
      group = "{" +:+ inner +:+ "}" ∧
      first_at fence_open pre text ∧
      first_at fence_close inner (inner +:+ fence_close +:+ post)) as Hsound.
  { intros group. unfold json_group.
    destruct (after_first fence_open text) as [rest|] eqn:Hopen; [|done]. simpl.
    destruct (before_first fence_close rest) as [inner|] eqn:Hclose; [|done].
    intros [= <-].
    apply after_first_spec in Hopen as (pre & -> & Hfirst).
    apply before_first_spec in Hclose as (post & -> & Hfirst').
    by exists pre, inner, post. }
  split; [|done]. split.
  - intros Hnone (pre & inner & post & ->).
    destruct (after_first_occurs fence_open
                (pre +:+ fence_open +:+ inner +:+ fence_close +:+ post))
      as (rest & Hrest); [by eexists _, _|].
    pose proof (after_first_spec _ _ _ Hrest) as (pre' & Heq & Hfirst).
    specialize (Hfirst pre _ eq_refl).
    destruct (append_split _ _ _ _ (eq_sym Heq) Hfirst) as (x & -> & Hx).
    rewrite append_assoc in Heq. apply (inj (String.app pre')) in Heq.
    assert (occurs_in fence_close rest) as Hocc.
    { destruct (append_split fence_open rest (x +:+ fence_open)
                  (inner +:+ fence_close +:+ post)) as (y & Hy & ->).
      - by rewrite append_assoc.
      - rewrite length_append. lia.
      - exists (y +:+ inner), post. by rewrite !append_assoc. }
    apply before_first_occurs in Hocc as (inner' & Hinner).
    unfold json_group in Hnone. rewrite Hrest in Hnone. simpl in Hnone.
    by rewrite Hinner in Hnone.
  - intros Hno. destruct (json_group text) as [group|]; [|done].
    destruct Hno. destruct (Hsound group eq_refl) as (pre & inner & post & ? & _).
    eauto.
Qed.

(** ** The tag-stripping fallback *)

Lemma after_first_gt_cons (c : ascii) (r : string) :
  after_first ">" (String c r) =
  if Ascii.eqb c ">" then Some r else after_first ">" r.
Proof.
  change (after_first ">" (String c r)) with
    (match (if Ascii.eqb ">" c then drop_prefix "" r else None) with
     | Some rest => Some rest
     | None => after_first ">" r
     end).
  rewrite (Ascii.eqb_sym ">" c).
  destruct (Ascii.eqb c ">"); [by destruct r | done].
Qed.

Lemma strip_tags_aux_cons (c : ascii) (r fr : string) (ar : option string) :
  strip_tags_aux r = (fr, ar) →
  strip_tags_aux (String c r) =
  (match r, ar with
   | String d _, Some x =>
       if Ascii.eqb c "<" && negb (Ascii.eqb d ">") then x else String c fr
   | _, _ => String c fr
   end,
   if Ascii.eqb c ">" then Some fr else ar).
Proof.
  intros Haux.
  change (strip_tags_aux (String c r)) with
    (let '(fr, ar) := strip_tags_aux r in
     (match r, ar with
      | String d _, Some x =>
          if Ascii.eqb c "<" && negb (Ascii.eqb d ">") then x else String c fr
      | _, _ => String c fr
      end,
      if Ascii.eqb c ">" then Some fr else ar)).
  by rewrite Haux.
Qed.

Lemma strip_tags_aux_snd (s : string) :
  (strip_tags_aux s).2 = strip_tags <$> after_first ">" s.
Proof.
  induction s as [|c r IH]; [done|].
  rewrite after_first_gt_cons.
  rewrite (strip_tags_aux_cons c r (strip_tags r) (strip_tags_aux r).2)
    by (unfold strip_tags; by destruct (strip_tags_aux r)).
  cbn [snd]. rewrite IH. by destruct (Ascii.eqb c ">").
Qed.

(** One step of the substitution: a [<] followed by a character other than
    [>] and, later, by a [>] is removed with everything up to that [>]; any
    other character is kept. *)
Lemma strip_tags_cons (c : ascii) (r : string) :
  strip_tags (String c r) =
  match (if Ascii.eqb c "<" &&
            match r with
            | String d _ => negb (Ascii.eqb d ">")
            | EmptyString => false
            end
         then after_first ">" r else None) with
  | Some rest => strip_tags rest
  | None => String c (strip_tags r)
  end.
Proof.
  unfold strip_tags at 1.
  rewrite (strip_tags_aux_cons c r (strip_tags r) (strip_tags <$> after_first ">" r)).
  - cbn [fst]. destruct r as [|d r']; [by rewrite andb_false_r|].
    destruct (after_first ">" (String d r')); simpl;
      by destruct (Ascii.eqb c "<" && negb (Ascii.eqb d ">")).
  - rewrite <- strip_tags_aux_snd. unfold strip_tags.
    by destruct (strip_tags_aux r).
Qed.

Lemma not_occurs_cons (ch c : ascii) (s : string) :
  ¬ occurs_in (String ch "") (String c s) →
  Ascii.eqb c ch = false ∧ ¬ occurs_in (String ch "") s.
Proof.
  intros Hno. split.
  - destruct (Ascii.eqb_spec c ch) as [->|]; [|done].
    destruct Hno. by exists "", s.
  - intros (pre & suf & ->). destruct Hno. by exists (String c pre), suf.
Qed.

Lemma after_first_None (pat s : string) :
  after_first pat s = None ↔ ¬ occurs_in pat s.
Proof.
  split.
  - intros Hnone Hocc. apply after_first_occurs in Hocc as [rest Hrest].
    congruence.
  - intros Hno. destruct (after_first pat s) as [rest|] eqn:Hrest; [|done].
    destruct Hno. apply after_first_spec in Hrest as (pre & -> & _).
    by exists pre, rest.
Qed.

Lemma after_first_gt_app (t post : string) :
  ¬ occurs_in ">" t → after_first ">" (t +:+ ">" +:+ post) = Some post.
Proof.
  induction t as [|c t IH]; intros Hno.
  - rewrite append_nil, append_cons, append_nil. by rewrite after_first_gt_cons.
  - apply not_occurs_cons in Hno as [Hc Hno].
    by rewrite append_cons, after_first_gt_cons, Hc, IH.
Qed.

Lemma strip_tags_no_gt (s : string) : ¬ occurs_in ">" s → strip_tags s = s.
Proof.
  induction s as [|c r IH]; intros Hno; [done|].
  apply not_occurs_cons in Hno as [_ Hno].
  rewrite strip_tags_cons, (proj2 (after_first_None ">" r) Hno), (IH Hno).
  by destruct (_ && _).
Qed.

Lemma strip_tags_no_lt (s : string) : ¬ occurs_in "<" s → strip_tags s = s.
Proof.
  induction s as [|c r IH]; intros Hno; [done|].
  apply not_occurs_cons in Hno as [Hc Hno].
  by rewrite strip_tags_cons, Hc, (IH Hno).
Qed.

(** X26. The fallback removes a tag: in a text that starts with no [<], the
    first [<], the non-empty text without [>] that follows it and the [>] after
    that are dropped, and the rest is treated in the same way. *)
Theorem strip_tags_removes_tag (pre t post : string) :
  ¬ occurs_in "<" pre → t ≠ "" → ¬ occurs_in ">" t →
  strip_tags (pre +:+ "<" +:+ t +:+ ">" +:+ post) = pre +:+ strip_tags post.
Proof.
  intros Hpre Ht Hgt. induction pre as [|c pre IH].
  - rewrite !append_nil, append_cons, append_nil, strip_tags_cons.
    rewrite (after_first_gt_app t post Hgt).
    destruct t as [|d t]; [done|].
    apply not_occurs_cons in Hgt as [Hd _].
    rewrite append_cons. by rewrite Hd.
  - apply not_occurs_cons in Hpre as [Hc Hpre].
    by rewrite (append_cons c pre), strip_tags_cons, Hc, (IH Hpre).
Qed.

(** X27. The fallback leaves alone a text in which no tag can be closed or
    opened: one without any [>], or without any [<]. *)
Theorem strip_tags_unchanged (s : string) :
  ¬ occurs_in ">" s ∨ ¬ occurs_in "<" s → strip_tags s = s.
Proof. intros [?|?]; [by apply strip_tags_no_gt | by apply strip_tags_no_lt]. Qed.

Lemma after_first_length (pat s rest : string) :
  after_first pat s = Some rest → String.length rest ≤ String.length s.
Proof.
  intros (pre & -> & _)%after_first_spec. rewrite !length_append. lia.
Qed.

(** A character that the substitution keeps is kept again in front of the
    result for the rest. *)
Lemma strip_tags_kept_again (c : ascii) (r : string) :
  (if Ascii.eqb c "<" &&
      match r with
      | String d _ => negb (Ascii.eqb d ">")
      | EmptyString => false
      end
   then after_first ">" r else None) = None →
  (if Ascii.eqb c "<" &&
      match strip_tags r with
      | String d _ => negb (Ascii.eqb d ">")
      | EmptyString => false
      end
   then after_first ">" (strip_tags r) else None) = None.
Proof.
  destruct (Ascii.eqb c "<"); [|done]. cbn [andb].
  destruct r as [|d r']; [done|].
  destruct (Ascii.eqb_spec d ">") as [->|Hd]; cbn [negb].
  - intros _. by rewrite strip_tags_cons.
  - intros Hnone. apply after_first_None in Hnone.
    rewrite (strip_tags_no_gt _ Hnone), (proj2 (after_first_None _ _) Hnone).
    by destruct (Ascii.eqb d ">").
Qed.

Lemma strip_tags_idempotent_le (n : nat) (s : string) :
  String.length s ≤ n → strip_tags (strip_tags s) = strip_tags s.
Proof.
  revert s. induction n as [|n IH]; intros s Hlen.
  - destruct s; [done | simpl in Hlen; lia].
  - destruct s as [|c r]; [done|]. simpl in Hlen.
    rewrite (strip_tags_cons c r).
    destruct (if Ascii.eqb c "<" && _ then after_first ">" r else None)
      as [rest|] eqn:Hstep.
    + apply IH. destruct (_ && _); [|done].
      apply after_first_length in Hstep. lia.
    + rewrite strip_tags_cons, (strip_tags_kept_again c r Hstep).
      by rewrite IH by lia.
Qed.

(** X28. The fallback leaves no tag behind: applying it to its own result
    changes nothing. *)
Theorem strip_tags_idempotent (s : string) :
  strip_tags (strip_tags s) = strip_tags s.
Proof. by apply (strip_tags_idempotent_le (String.length s)). Qed.

(** ** Witnesses of the further properties *)

Lemma parse_mbox_file_in_order_witness :
  ∃ rows, parse_mbox_file config sample_mbox = Ok rows ∧
          rows = omap (kept_row config) sample_mbox ∧
          length rows ≤ length sample_mbox.
Proof.
  destruct (parse_mbox_file config sample_mbox) as [rows|] eqn:Hrows;
    [|vm_compute in Hrows; discriminate].
  exists rows. split; [reflexivity|].
  exact (parse_mbox_file_in_order config sample_mbox rows Hrows).
Defined.

Lemma parse_mbox_file_monotone_witness :
  ∃ rows rows', parse_mbox_file config sample_mbox = Ok rows ∧
                parse_mbox_file config_more sample_mbox = Ok rows' ∧
                rows' `sublist_of` rows.
Proof.
  assert (config_le config config_more) as Hle.
  { split_and!; [apply union_subseteq_r | done..]. }
  destruct (parse_mbox_file config sample_mbox) as [rows|] eqn:Hrows;
    [|vm_compute in Hrows; discriminate].
  destruct (parse_mbox_file_monotone config config_more sample_mbox rows Hle Hrows)
    as (rows' & Hrows' & Hsub).
  exists rows, rows'. split_and!; [reflexivity | exact Hrows' | exact Hsub].
Defined.

Lemma parse_mbox_file_raises_iff_witness :
  parse_mbox_file config [mail_a; html_without_text] = Raise.
Proof.
  assert (Forall plain_fields [mail_a; html_without_text]) as Hplain
    by (repeat constructor).
  apply (proj2 (parse_mbox_file_raises_iff config [mail_a; html_without_text]
                  Hplain)).
  exists html_without_text. split_and!.
  - right. left.
  - unfold passes_rules. rewrite excluded_by_rules_dec. vm_compute. discriminate.
  - reflexivity.
  - exists (leaf [] "text/html" None None). split; [right; left|].
    repeat split.
Defined.

Lemma empty_subject_pattern_excludes_all_witness :
  parse_mbox_file config_empty_phrase sample_mbox = Ok [].
Proof.
  apply (proj2 (empty_subject_pattern_excludes_all config_empty_phrase sample_mbox
                  (or_introl eq_refl))).
  repeat constructor.
Defined.

Lemma rules_decide_exclusion_witness :
  parse_message config maintenance_request = Ok None ↔
  excluded_by_rules config maintenance_request.
Proof.
  assert (plain_fields maintenance_request) as Hplain by reflexivity.
  exact (proj1 (rules_decide_exclusion config maintenance_request Hplain)).
Defined.

Lemma empty_sender_kept_witness :
  ¬ rule_domain config no_from ∧ ¬ rule_sender config no_from.
Proof.
  assert (plain_fields no_from) as Hplain by reflexivity.
  assert ((parseaddr (header_text no_from "From")).2 = "") as Haddr
    by reflexivity.
  assert (lower "" = "") as Hlower by reflexivity.
  exact (proj1 (empty_sender_kept no_from Hplain Haddr Hlower)).
Defined.

Lemma analysis_keeps_decided_leads_witness :
  analyze_and_research_emails [first_of_tie; second_of_tie] = Ok [sample_answer] ∧
  length [sample_answer] ≤ length [first_of_tie; second_of_tie].
Proof.
  assert (analyze_and_research_emails [first_of_tie; second_of_tie]
          = Ok [sample_answer]) as Hleads by reflexivity.
  split; [exact Hleads|].
  exact (proj1 (analysis_keeps_decided_leads _ _ Hleads)).
Defined.

Lemma drafting_after_analysis_witness :
  Forall lead_shape [sample_answer].
Proof.
  assert (analyze_and_research_emails [first_of_tie; second_of_tie]
          = Ok [sample_answer]) as Hleads by reflexivity.
  exact (proj1 (drafting_after_analysis _ _ Hleads)).
Defined.

Lemma main_to_csv_outcome_witness :
  main_to_csv config sample_mbox = Raise ↔
  parse_mbox_file config sample_mbox = Raise.
Proof.
  apply (proj1 (main_to_csv_outcome config sample_mbox)); reflexivity.
Defined.

Lemma latest_emails_tie_break_witness :
  head (filter (λ x, sender_domain x = sender_domain first_of_tie ∧
                     date x = date first_of_tie)
               [second_of_tie; older_row; first_of_tie; second_of_tie])
  = Some second_of_tie.
Proof.
  apply (latest_emails_tie_break
           [second_of_tie; older_row; first_of_tie; second_of_tie] second_of_tie).
  change (second_of_tie ∈ [second_of_tie]). left.
Defined.

Lemma latest_emails_order_independent_witness :
  latest_emails [older_row; newer_row] = latest_emails [newer_row; older_row].
Proof.
  apply (latest_emails_order_independent [older_row; newer_row]
           [newer_row; older_row]).
  - apply (bool_decide_unpack _). by vm_compute.
  - apply Permutation_swap.
Defined.

Lemma main_analyses_addressed_rows_witness :
  ∃ r, occurs_in "@" (email r) ∧
       ∃ msg, msg ∈ sample_mbox ∧ kept_row config msg = Some r.
Proof.
  destruct (main config sample_mbox) as [[[filtered latest]|]|] eqn:Hmain;
    [|vm_compute in Hmain; discriminate..].
  destruct latest as [|r latest]; [vm_compute in Hmain; discriminate|].
  exists r.
  apply (main_analyses_addressed_rows config sample_mbox filtered (r :: latest) r
           Hmain).
  left.
Defined.

Lemma extract_addresses_order_independent_witness :
  _extract_addresses to_b_then_a "To" = _extract_addresses to_a_b_a "To".
Proof.
  apply (extract_addresses_order_independent to_b_then_a to_a_b_a "To").
  intros a _.
  change (a ∈ ["b@x.com"; "a@x.com"] ↔ a ∈ ["a@x.com"; "b@x.com"; "a@x.com"]).
  rewrite !elem_of_cons, !elem_of_nil. tauto.
Defined.

Lemma isoformat_order_witness :
  String.compare (isoformat first_of_october) (isoformat second_of_october)
  = datetime_compare first_of_october second_of_october.
Proof.
  apply (isoformat_order first_of_october second_of_october); reflexivity.
Defined.

Lemma csv_table_shape_witness :
  ∃ header lines,
    write_to_csv sample_drafted = Ok (Some (header, lines)) ∧
    StronglySorted str_lt header ∧ length lines = length sample_drafted ∧
    Forall (λ line, length line = length header) lines.
Proof.
  destruct (write_to_csv sample_drafted) as [[[header lines]|]|] eqn:Htable;
    [|vm_compute in Htable; discriminate..].
  exists header, lines. split; [reflexivity|].
  destruct (csv_table_shape sample_drafted header lines Htable)
    as (Hsorted & _ & Hlen & Hrect & _).
  split_and!; [exact Hsorted | exact Hlen | exact Hrect].
Defined.

Lemma strip_tags_removes_tag_witness :
  strip_tags ("Hi " +:+ "<" +:+ "b" +:+ ">" +:+ "there</b") =
  "Hi " +:+ strip_tags "there</b".
Proof.
  apply (strip_tags_removes_tag "Hi " "b" "there</b").
  - by apply contains_false.
  - discriminate.
  - by apply contains_false.
Defined.

Lemma strip_tags_unchanged_witness : strip_tags "1 < 2" = "1 < 2".
Proof.
  apply (strip_tags_unchanged "1 < 2"). left. by apply contains_false.
Defined.

Lemma attachment_container_children_read_witness :
  _get_body_text (multipart [] ([cover_note] ++ attached_message :: [])) =
  _get_body_text (multipart [] ([cover_note] ++ [forwarded_text] ++ [])).
Proof.
  apply (attachment_container_children_read [] "multipart/mixed" None None
           attached_message [forwarded_text] [cover_note] []); reflexivity.
Defined.
